(** * py-huff assembler: a shallow embedding of [py_huff/assembler.py] and
    [py_huff/utils.py], and the properties of the label-resolution pipeline
    (validate, solidify, shrink, emit, deploy wrapper).

    Conventions of the embedding.
    - Python [int] is [Z]; [len(..)] is [Z.of_nat (length ..)]; the indices
      produced by [enumerate] are [nat].
    - [bytes] is [list byte].
    - [dict[MarkId, V]] is [gmap MarkId V].
    - A Python exception is a value of [exn]; a function that may raise
      returns [result].  An assertion message (an f-string) is kept as the
      constructor of [message] holding exactly the values the f-string
      interpolates.
    - The [while] loop of [shorten_asm] is run on fuel: [None] means the fuel
      ran out, and says nothing about the Python program. *)

From Stdlib Require Import ZArith Lia List String.
From Stdlib.Strings Require Byte.
From stdpp Require Import base option list gmap strings.

Local Open Scope Z_scope.

(** ** Data model *)

Abbreviation byte := Byte.byte.
Abbreviation ContextId := (list Z).
Abbreviation MarkId := (ContextId * Z)%type.

(** Modelled from the spec: [Op] is declared in [py_huff/opcodes.py], which is
    not part of the sources at hand.  The assembler reads its field
    [extra_data] and calls [get_bytes]; the spec has an instruction as "an
    opcode identifier plus zero or more immediate data bytes physically
    attached to it", emitted as "their opcode byte followed by their
    immediate bytes". *)
Record Op := mkOp { op : byte; extra_data : list byte }.

(** Modelled from the spec: [Op.get_bytes], the opcode byte followed by the
    immediate bytes. *)
Definition get_bytes (o : Op) : list byte := op o :: extra_data o.

(** [MarkRef | MarkDeltaRef], the type of the field [ref] of [SizedRef]. *)
Inductive Ref :=
| MarkRef (mid : MarkId)
| MarkDeltaRef (start end_ : MarkId).

(** [Asm = Op | Mark | MarkRef | MarkDeltaRef | bytes] *)
Inductive Asm :=
| A_Op (o : Op)
| A_Mark (mid : MarkId)
| A_Ref (r : Ref)
| A_bytes (b : list byte).

(** [SolidAsm = Op | Mark | SizedRef | bytes] *)
Inductive SolidAsm :=
| S_Op (o : Op)
| S_Mark (mid : MarkId)
| SizedRef (ref : Ref) (offset_size : Z)
| S_bytes (b : list byte).

Definition START_SUB_ID : Z := 0.
Definition END_SUB_ID : Z := 1.

#[global] Instance byte_eq_dec : EqDecision byte := Byte.byte_eq_dec.
#[global] Instance Op_eq_dec : EqDecision Op.
Proof. solve_decision. Defined.
#[global] Instance Ref_eq_dec : EqDecision Ref.
Proof. solve_decision. Defined.
#[global] Instance Asm_eq_dec : EqDecision Asm.
Proof. solve_decision. Defined.
#[global] Instance SolidAsm_eq_dec : EqDecision SolidAsm.
Proof. solve_decision. Defined.

(** ** Exceptions *)

(** The text of an assertion message, by the values it interpolates:
    - [Duplicate_key ident]: ['Duplicate key {ident}'] ([default_unique_error]);
    - [Invalid_reference i mid]:
      ['Assembly step #{i} has invalid reference to {mid}'];
    - [Negative_delta i]: ['Assembly step #{i} references negative delta'];
    - [No_message]: an [assert] without a message. *)
Inductive message :=
| Duplicate_key (ident : MarkId)
| Invalid_reference (i : nat) (mid : MarkId)
| Negative_delta (i : nat)
| No_message.

Inductive exn :=
| AssertionError (m : message)
| KeyError (k : MarkId)
| OverflowError
| ValueError.

Inductive result (A : Type) :=
| Ok (a : A)
| Raise (e : exn).
Arguments Ok {A} a.
Arguments Raise {A} e.

#[global] Instance result_ret : MRet result := fun _ a => Ok a.
#[global] Instance result_bind : MBind result := fun _ _ f r =>
  match r with
  | Ok a => f a
  | Raise e => Raise e
  end.

(** [assert cond, msg] *)
Definition assert_ (cond : bool) (msg : message) : result unit :=
  if cond then Ok tt else Raise (AssertionError msg).

(** [d[k]] *)
Definition getitem {V} (d : gmap MarkId V) (k : MarkId) : result V :=
  match d !! k with
  | Some v => Ok v
  | None => Raise (KeyError k)
  end.

(** [k in d] *)
Definition contains {V} (d : gmap MarkId V) (k : MarkId) : bool :=
  bool_decide (is_Some (d !! k)).

(** ** utils.py

    The helpers are generic in the key type [K]; the assembler uses them at
    [MarkId] only, and they are written at that type.  [on_dup] builds the
    message of the assertion; a call that leaves it out passes
    [default_unique_error]. *)

Definition default_unique_error (ident : MarkId) : message := Duplicate_key ident.

Definition set_unique {V} (d : gmap MarkId V) (k : MarkId) (v : V)
    (on_dup : MarkId -> message) : result (gmap MarkId V) :=
  _ ← assert_ (negb (contains d k)) (on_dup k);
  Ok (<[k := v]> d).

Fixpoint build_unique_dict_from {V} (new_dict : gmap MarkId V)
    (kvs : list (MarkId * V)) (on_dup : MarkId -> message)
    : result (gmap MarkId V) :=
  match kvs with
  | [] => Ok new_dict
  | (key, value) :: rest =>
      new_dict ← set_unique new_dict key value on_dup;
      build_unique_dict_from new_dict rest on_dup
  end.

Definition build_unique_dict {V} (kvs : list (MarkId * V))
    (on_dup : MarkId -> message) : result (gmap MarkId V) :=
  build_unique_dict_from ∅ kvs on_dup.

(** ** assembler.py: sizes *)

Definition len {A} (l : list A) : Z := Z.of_nat (length l).

(** [set_size] takes a [SizedRef]; it is only ever applied to one, and the
    other steps, which have no width, are returned as they are. *)
Definition set_size (ref : SolidAsm) (size : Z) : SolidAsm :=
  match ref with
  | SizedRef r _ => SizedRef r size
  | other => other
  end.

Definition min_static_size (step : Asm) : Z :=
  match step with
  | A_Op o => 1 + len (extra_data o)
  | A_bytes b => len b
  | A_Ref _ => 1
  | A_Mark _ => 0
  end.

Definition get_size (step : SolidAsm) : Z :=
  match step with
  | S_Op o => 1 + len (extra_data o)
  | S_bytes b => len b
  | SizedRef _ offset_size => 1 + offset_size
  | S_Mark _ => 0
  end.

(** [int.bit_length]: the number of bits of the absolute value, 0 for 0. *)
Definition bit_length (x : Z) : Z :=
  if x =? 0 then 0 else Z.log2 (Z.abs x) + 1.

Definition needed_bytes (x : Z) : Z :=
  Z.max ((bit_length x + 7) / 8) 1.

(** ** assembler.py: the solidifier *)

(** Python's [sum]: a left fold of [+] from 0. *)
Definition sum (l : list Z) : Z := fold_left Z.add l 0.

Definition is_ref (step : Asm) : bool :=
  match step with
  | A_Ref _ => true
  | _ => false
  end.

Definition ref_count (asm : list Asm) : Z :=
  sum (map (fun step => Z.b2z (is_ref step)) asm).

Definition min_static_len (asm : list Asm) : Z :=
  sum (map min_static_size asm).

(** The loop [while ((1 << (8 * dest_bytes)) - 1) < min_static_len +
    dest_bytes * ref_count: dest_bytes += 1].  The recursion is on a bound for
    the number of iterations; [dest_bytes_loop_exits] shows that with the
    bound [get_min_static_size_bytes] passes, the loop always leaves through
    its condition. *)
Fixpoint dest_bytes_loop (bound : nat) (min_static_len ref_count dest_bytes : Z) : Z :=
  match bound with
  | O => dest_bytes
  | S bound' =>
      if Z.shiftl 1 (8 * dest_bytes) - 1 <? min_static_len + dest_bytes * ref_count
      then dest_bytes_loop bound' min_static_len ref_count (dest_bytes + 1)
      else dest_bytes
  end.

Definition get_min_static_size_bytes (asm : list Asm) : Z :=
  let ref_count := ref_count asm in
  let min_static_len := min_static_len asm in
  dest_bytes_loop (Z.to_nat min_static_len) min_static_len ref_count 1.

(** [SizedRef(step, size_bytes) if isinstance(step, (MarkRef, MarkDeltaRef))
    else step] *)
Definition solidify (size_bytes : Z) (step : Asm) : SolidAsm :=
  match step with
  | A_Ref r => SizedRef r size_bytes
  | A_Op o => S_Op o
  | A_Mark mid => S_Mark mid
  | A_bytes b => S_bytes b
  end.

Definition asm_to_solid (asm : list Asm) : result (list SolidAsm) :=
  let size_bytes := get_min_static_size_bytes asm in
  _ ← assert_ (size_bytes <=? 6) No_message;
  Ok (map (solidify size_bytes) asm).

(** ** assembler.py: the validator *)

(** [enumerate(l)], counting from [i]. *)
Fixpoint enumerate_from {A} (i : nat) (l : list A) : list (nat * A) :=
  match l with
  | [] => []
  | x :: l' => (i, x) :: enumerate_from (S i) l'
  end.

Definition enumerate {A} (l : list A) : list (nat * A) := enumerate_from 0 l.

(** [(step.mid, i) for i, step in enumerate(asm) if isinstance(step, Mark)] *)
Definition mark_entries_of (steps : list (nat * Asm)) : list (MarkId * nat) :=
  omap (fun '(i, step) =>
          match step with
          | A_Mark mid => Some (mid, i)
          | _ => None
          end) steps.

(** The body of the [for] loop of [validate_asm].  In
    [indices[step.end] > indices[step.start]] the left operand is read first. *)
Definition validate_step (indices : gmap MarkId nat) (i : nat) (step : Asm)
    : result unit :=
  match step with
  | A_Ref (MarkRef mid) =>
      assert_ (contains indices mid) (Invalid_reference i mid)
  | A_Ref (MarkDeltaRef start end_) =>
      _ ← assert_ (contains indices start) (Invalid_reference i start);
      _ ← assert_ (contains indices end_) (Invalid_reference i end_);
      end_index ← getitem indices end_;
      start_index ← getitem indices start;
      assert_ (start_index <? end_index)%nat (Negative_delta i)
  | _ => Ok tt
  end.

Fixpoint validate_steps (indices : gmap MarkId nat) (steps : list (nat * Asm))
    : result unit :=
  match steps with
  | [] => Ok tt
  | (i, step) :: rest =>
      _ ← validate_step indices i step;
      validate_steps indices rest
  end.

Definition validate_asm (asm : list Asm) : result unit :=
  indices ← build_unique_dict (mark_entries_of (enumerate asm)) default_unique_error;
  validate_steps indices (enumerate asm).


(** ** assembler.py: offsets *)

Fixpoint get_solid_offsets_from (mark_offsets : gmap MarkId Z) (offset : Z)
    (asm : list SolidAsm) : gmap MarkId Z :=
  match asm with
  | [] => mark_offsets
  | step :: rest =>
      let mark_offsets :=
        match step with
        | S_Mark mid => <[mid := offset]> mark_offsets
        | _ => mark_offsets
        end in
      get_solid_offsets_from mark_offsets (offset + get_size step) rest
  end.

Definition get_solid_offsets (asm : list SolidAsm) : gmap MarkId Z :=
  get_solid_offsets_from ∅ 0 asm.

(** The value a reference resolves to, as [shorten_asm_once] and
    [solid_asm_to_bytecode] both compute it in place: [mark_offsets[ref.mid]],
    or [mark_offsets[ref.end] - mark_offsets[ref.start]] (left operand
    first). *)
Definition ref_value (mark_offsets : gmap MarkId Z) (ref : Ref) : result Z :=
  match ref with
  | MarkRef mid => getitem mark_offsets mid
  | MarkDeltaRef start end_ =>
      end_offset ← getitem mark_offsets end_;
      start_offset ← getitem mark_offsets start;
      Ok (end_offset - start_offset)
  end.

(** ** assembler.py: the shrinker *)

(** The body of the [for] loop of [shorten_asm_once]: whether the step
    changed, and the step to append. *)
Definition shorten_step (mark_offsets : gmap MarkId Z) (step : SolidAsm)
    : result (bool * SolidAsm) :=
  match step with
  | SizedRef ref offset_size =>
      value ← ref_value mark_offsets ref;
      let req_size := needed_bytes value in
      if bool_decide (req_size <> offset_size)
      then Ok (true, set_size step req_size)
      else Ok (false, step)
  | _ => Ok (false, step)
  end.

Fixpoint shorten_steps (mark_offsets : gmap MarkId Z) (changed_any : bool)
    (shortened_steps : list SolidAsm) (asm : list SolidAsm)
    : result (bool * list SolidAsm) :=
  match asm with
  | [] => Ok (changed_any, shortened_steps)
  | step :: rest =>
      '(changed, step') ← shorten_step mark_offsets step;
      shorten_steps mark_offsets (changed || changed_any)
        (shortened_steps ++ [step']) rest
  end.

Definition shorten_asm_once (asm : list SolidAsm) : result (bool * list SolidAsm) :=
  let mark_offsets := get_solid_offsets asm in
  shorten_steps mark_offsets false [] asm.

(** [while changed_any and max_iters: max_iters -= 1; changed_any, asm =
    shorten_asm_once(asm)].  An [int] is true when it is not 0. *)
Fixpoint shorten_asm_loop (fuel : nat) (changed_any : bool) (max_iters : Z)
    (asm : list SolidAsm) : option (result (list SolidAsm)) :=
  if changed_any && negb (max_iters =? 0) then
    match fuel with
    | O => None
    | S fuel' =>
        match shorten_asm_once asm with
        | Raise e => Some (Raise e)
        | Ok (changed_any, asm) =>
            shorten_asm_loop fuel' changed_any (max_iters - 1) asm
        end
    end
  else Some (Ok asm).

(** The default of the parameter [max_iters] of [shorten_asm]. *)
Definition shorten_asm_default_max_iters : Z := 100.

(** [max_iters = None] is a call that leaves the parameter out. *)
Definition shorten_asm (fuel : nat) (asm : list SolidAsm) (max_iters : option Z)
    : option (result (list SolidAsm)) :=
  shorten_asm_loop fuel true (default shorten_asm_default_max_iters max_iters) asm.

(** ** assembler.py: the emitter *)

(** The interface to [py_huff/opcodes.py], which is not part of the sources at
    hand: the assembler calls [create_push(data)] and
    [create_plain_op(name)].  The table is a parameter of the pipeline. *)
Class OpcodeTable := {
  create_push : list byte -> Op;
  create_plain_op : string -> Op
}.

(** What the pipeline relies on from the table: a push carries the bytes it
    was given as its immediate, and a plain operation has no immediate. *)
Class OpcodeTableLaws (table : OpcodeTable) : Prop := {
  create_push_extra_data : forall data, extra_data (create_push data) = data;
  create_plain_op_extra_data : forall name, extra_data (create_plain_op name) = []
}.

Definition byte_of_Z (z : Z) : byte := default Byte.x00 (Byte.of_N (Z.to_N z)).

Definition Z_of_byte (b : byte) : Z := Z.of_N (Byte.to_N b).

(** The [length] low bytes of [value], most significant first. *)
Fixpoint big_endian (length : nat) (value : Z) : list byte :=
  match length with
  | O => []
  | S length' => big_endian length' (value / 256) ++ [byte_of_Z (value mod 256)]
  end.

(** [value.to_bytes(length, 'big')]: [ValueError] on a negative length,
    [OverflowError] on a negative value or one that does not fit. *)
Definition to_bytes (value length : Z) : result (list byte) :=
  if length <? 0 then Raise ValueError
  else if value <? 0 then Raise OverflowError
  else if 2 ^ (8 * length) <=? value then Raise OverflowError
  else Ok (big_endian (Z.to_nat length) value).

(** [int.from_bytes(data, 'big')] *)
Definition from_bytes (data : list byte) : Z :=
  fold_left (fun acc b => acc * 256 + Z_of_byte b) data 0.

Section Emitter.
Context {table : OpcodeTable}.

(** The body of the [for] loop of [solid_asm_to_bytecode]: the bytes a step
    adds. *)
Definition emit_step (mark_offsets : gmap MarkId Z) (step : SolidAsm)
    : result (list byte) :=
  match step with
  | S_Op o => Ok (get_bytes o)
  | S_Mark _ => Ok []
  | SizedRef ref offset_size =>
      value ← ref_value mark_offsets ref;
      data ← to_bytes value offset_size;
      let push := create_push data in
      Ok (get_bytes push)
  | S_bytes b => Ok b
  end.

Fixpoint emit_steps (mark_offsets : gmap MarkId Z) (final_bytes : list byte)
    (asm : list SolidAsm) : result (list byte) :=
  match asm with
  | [] => Ok final_bytes
  | step :: rest =>
      step_bytes ← emit_step mark_offsets step;
      emit_steps mark_offsets (final_bytes ++ step_bytes) rest
  end.

Definition solid_asm_to_bytecode (asm : list SolidAsm) : result (list byte) :=
  let mark_offsets := get_solid_offsets asm in
  emit_steps mark_offsets [] asm.

(** The default of the parameter [max_reduce_iters] of [asm_to_bytecode]. *)
Definition asm_to_bytecode_default_max_reduce_iters : Z := -1.

(** [max_reduce_iters = None] is a call that leaves the parameter out.  The
    budget is always handed on to [shorten_asm]. *)
Definition asm_to_bytecode (fuel : nat) (asm : list Asm)
    (max_reduce_iters : option Z) : option (result (list byte)) :=
  let max_reduce_iters :=
    default asm_to_bytecode_default_max_reduce_iters max_reduce_iters in
  match validate_asm asm with
  | Raise e => Some (Raise e)
  | Ok _ =>
      match asm_to_solid asm with
      | Raise e => Some (Raise e)
      | Ok solid_asm =>
          match shorten_asm fuel solid_asm (Some max_reduce_iters) with
          | None => None
          | Some (Raise e) => Some (Raise e)
          | Some (Ok solid_asm) => Some (solid_asm_to_bytecode solid_asm)
          end
      end
  end.

(** ** assembler.py: the deploy wrapper *)

Definition deploy_asm (runtime : list byte) : list Asm :=
  let start : MarkId := ([], START_SUB_ID) in
  let end_ : MarkId := ([], END_SUB_ID) in
  [ A_Ref (MarkDeltaRef start end_);
    A_Op (create_plain_op "dup1");
    A_Ref (MarkRef start);
    A_Op (create_plain_op "push0");
    A_Op (create_plain_op "codecopy");
    A_Op (create_plain_op "push0");
    A_Op (create_plain_op "return");
    A_Mark start;
    A_bytes runtime;
    A_Mark end_ ].

Definition minimal_deploy (fuel : nat) (runtime : list byte)
    : option (result (list byte)) :=
  asm_to_bytecode fuel (deploy_asm runtime) None.
End Emitter.

(** An opcode table to run the pipeline on examples: the EVM's numbering, a
    push of [n] bytes being [0x5f + n]. *)
Definition evm_plain_opcode (name : string) : byte :=
  if String.eqb name "dup1" then Byte.x80
  else if String.eqb name "push0" then Byte.x5f
  else if String.eqb name "codecopy" then Byte.x39
  else if String.eqb name "return" then Byte.xf3
  else if String.eqb name "jumpdest" then Byte.x5b
  else Byte.xfe.

Definition evm_table : OpcodeTable := {|
  create_push data := mkOp (byte_of_Z (95 + len data)) data;
  create_plain_op name := mkOp (evm_plain_opcode name) []
|}.

(** * Specification vocabulary *)

(** The spec's words for the result of solidification at width [w]: a
    reference is wrapped with [w], any other step stays as it is. *)
Inductive solidified_at (w : Z) : Asm -> SolidAsm -> Prop :=
| solidified_op o : solidified_at w (A_Op o) (S_Op o)
| solidified_mark mid : solidified_at w (A_Mark mid) (S_Mark mid)
| solidified_bytes b : solidified_at w (A_bytes b) (S_bytes b)
| solidified_ref r : solidified_at w (A_Ref r) (SizedRef r w).

(** The spec's words: [R], the count of reference steps. *)
Definition reference_steps (asm : list Asm) : list Ref :=
  omap (fun step => match step with A_Ref r => Some r | _ => None end) asm.

Definition reference_count (asm : list Asm) : Z := len (reference_steps asm).

(** The spec's words: [L], the sum of the minimum static sizes of the steps,
    an instruction counted as its opcode byte and its immediate, raw bytes
    at their length, a reference as 1 byte (its opcode byte only), a label as
    nothing. *)
Fixpoint static_length (asm : list Asm) : Z :=
  match asm with
  | [] => 0
  | A_Op o :: rest => 1 + len (extra_data o) + static_length rest
  | A_bytes b :: rest => len b + static_length rest
  | A_Ref _ :: rest => 1 + static_length rest
  | A_Mark _ :: rest => static_length rest
  end.

(** The spec's words: the labels of the stream have pairwise distinct
    identities. *)
Definition mark_ids (asm : list Asm) : list MarkId :=
  omap (fun step => match step with A_Mark mid => Some mid | _ => None end) asm.

Definition labels_distinct (asm : list Asm) : Prop := NoDup (mark_ids asm).

(** The spec's words: a label of identity [mid] is present, at position [i]. *)
Definition label_at (asm : list Asm) (mid : MarkId) (i : nat) : Prop :=
  asm !! i = Some (A_Mark mid).

(** The spec's words: an absolute reference names a label that is present; a
    distance reference names two labels that are present, the end label at a
    position strictly greater than the start label's. *)
Definition reference_resolves (asm : list Asm) (r : Ref) : Prop :=
  match r with
  | MarkRef mid => exists i, label_at asm mid i
  | MarkDeltaRef start end_ =>
      exists i_start i_end,
        label_at asm start i_start /\ label_at asm end_ i_end /\
        (i_start < i_end)%nat
  end.

Definition well_formed (asm : list Asm) : Prop :=
  labels_distinct asm /\
  forall i r, asm !! i = Some (A_Ref r) -> reference_resolves asm r.

(** The identities a reference names. *)
Definition ref_ids (r : Ref) : list MarkId :=
  match r with
  | MarkRef mid => [mid]
  | MarkDeltaRef start end_ => [start; end_]
  end.

(** The spec's two error kinds of the validator.  A duplicate-identity error:
    two labels of the stream share the identity the error names. *)
Definition duplicate_identity_error (asm : list Asm) (e : exn) : Prop :=
  exists mid i j,
    i <> j /\ label_at asm mid i /\ label_at asm mid j /\
    e = AssertionError (Duplicate_key mid).

(** Why [validate_asm] rejects the reference [r] at position [i] with the
    error [e]: [r] names an absent identity, or it is a distance reference
    whose end label is not after its start label. *)
Definition reference_rejected (asm : list Asm) (i : nat) (r : Ref) (e : exn) : Prop :=
  (exists mid,
     mid ∈ ref_ids r /\ (forall j, ~ label_at asm mid j) /\
     e = AssertionError (Invalid_reference i mid))
  \/
  (exists start end_ i_start i_end,
     r = MarkDeltaRef start end_ /\
     label_at asm start i_start /\ label_at asm end_ i_end /\
     (i_end <= i_start)%nat /\
     e = AssertionError (Negative_delta i)).

(** An invalid-reference error: some reference step of the stream is rejected
    with it. *)
Definition invalid_reference_error (asm : list Asm) (e : exn) : Prop :=
  exists i r, asm !! i = Some (A_Ref r) /\ reference_rejected asm i r e.

(** The step index an error's message names, if it names one: only the two
    messages of [validate_asm] that start ['Assembly step #{i}'] do. *)
Definition named_position (e : exn) : option nat :=
  match e with
  | AssertionError (Invalid_reference i _) => Some i
  | AssertionError (Negative_delta i) => Some i
  | _ => None
  end.

(** The spec's words for a resolved stream of a symbolic one: the same steps
    in the same order, every reference carrying some width. *)
Inductive sized_from : Asm -> SolidAsm -> Prop :=
| sized_op o : sized_from (A_Op o) (S_Op o)
| sized_mark mid : sized_from (A_Mark mid) (S_Mark mid)
| sized_bytes b : sized_from (A_bytes b) (S_bytes b)
| sized_ref r w : sized_from (A_Ref r) (SizedRef r w).

(** The resolved streams the pipeline can hold for a symbolic stream: the
    solidified stream, and any stream a pass of the shrinker returns from one
    of them. *)
Inductive shrink_reachable (asm : list Asm) : list SolidAsm -> Prop :=
| reachable_solid solid :
    asm_to_solid asm = Ok solid -> shrink_reachable asm solid
| reachable_pass solid changed_any solid' :
    shrink_reachable asm solid ->
    shorten_asm_once solid = Ok (changed_any, solid') ->
    shrink_reachable asm solid'.

(** The byte offset of position [i]: the sizes of the steps before it. *)
Definition offset_of_position (solid : list SolidAsm) (i : nat) : Z :=
  sum (map get_size (take i solid)).

(** Every reference carries a width that is not negative. *)
Definition widths_nonneg (solid : list SolidAsm) : Prop :=
  forall r w, SizedRef r w ∈ solid -> 0 <= w.

(** The spec's words: the value of the reference fits in its width. *)
Definition reference_fits (solid : list SolidAsm) (r : Ref) (w : Z) : Prop :=
  exists v, ref_value (get_solid_offsets solid) r = Ok v /\ 0 <= v < 2 ^ (8 * w).

Definition references_fit (solid : list SolidAsm) : Prop :=
  forall r w, SizedRef r w ∈ solid -> reference_fits solid r w.

(** ** Example streams *)

(** A stream whose shrinking takes one pass per reference.  Link [i] is a
    pair of labels around 253 raw bytes and the distance reference of link
    [i + 1]: its distance is 256 while that reference is two bytes wide and
    255 once it is one byte wide.  The last link is one byte long.  So pass
    [k] narrows exactly the [k]-th reference from the end. *)
Definition link_start (i : Z) : MarkId := ([], 2 * i).
Definition link_end (i : Z) : MarkId := ([], 2 * i + 1).
Definition link_ref (i : Z) : Asm := A_Ref (MarkDeltaRef (link_start i) (link_end i)).

Fixpoint relax_links (n : nat) (i : Z) : list Asm :=
  match n with
  | O => [A_Mark (link_start i); A_bytes [Byte.x00]; A_Mark (link_end i)]
  | S n' =>
      [A_Mark (link_start i); A_bytes (repeat Byte.x00 253); link_ref (i + 1);
       A_Mark (link_end i)] ++ relax_links n' (i + 1)
  end.

Definition relax_chain (n : nat) : list Asm := link_ref 0 :: relax_links n 0.

(** The first [n] bytes of the bytecode a run returned. *)
Definition first_bytes (n : nat) (run : option (result (list byte)))
    : option (result (list byte)) :=
  match run with
  | Some (Ok bytecode) => Some (Ok (take n bytecode))
  | other => other
  end.

(** The resolved deploy stream, the distance reference [w_delta] bytes wide
    and the reference to the start label [w_start] bytes wide. *)
Definition deploy_solid `{OpcodeTable} (w_delta w_start : Z) (runtime : list byte)
    : list SolidAsm :=
  [ SizedRef (MarkDeltaRef ([], START_SUB_ID) ([], END_SUB_ID)) w_delta;
    S_Op (create_plain_op "dup1");
    SizedRef (MarkRef ([], START_SUB_ID)) w_start;
    S_Op (create_plain_op "push0");
    S_Op (create_plain_op "codecopy");
    S_Op (create_plain_op "push0");
    S_Op (create_plain_op "return");
    S_Mark ([], START_SUB_ID);
    S_bytes runtime;
    S_Mark ([], END_SUB_ID) ].

(** The bytecode of the deploy wrapper around [runtime], the two pushes
    carrying the immediates [length_immediate] and [start_immediate]. *)
Definition deploy_bytecode `{OpcodeTable} (length_immediate start_immediate : list byte)
    (runtime : list byte) : list byte :=
  get_bytes (create_push length_immediate) ++
  get_bytes (create_plain_op "dup1") ++
  get_bytes (create_push start_immediate) ++
  get_bytes (create_plain_op "push0") ++
  get_bytes (create_plain_op "codecopy") ++
  get_bytes (create_plain_op "push0") ++
  get_bytes (create_plain_op "return") ++
  runtime.

(** ** Vocabulary of the further properties *)

(** What a pass of the shrinker does to one step, the offsets being
    [mark_offsets]: a reference gets the width its value needs, any other
    step stays. *)
Inductive shrunk_step (mark_offsets : gmap MarkId Z) : SolidAsm -> SolidAsm -> Prop :=
| shrunk_op o : shrunk_step mark_offsets (S_Op o) (S_Op o)
| shrunk_mark mid : shrunk_step mark_offsets (S_Mark mid) (S_Mark mid)
| shrunk_bytes b : shrunk_step mark_offsets (S_bytes b) (S_bytes b)
| shrunk_ref r w v :
    ref_value mark_offsets r = Ok v ->
    shrunk_step mark_offsets (SizedRef r w) (SizedRef r (needed_bytes v)).

(** A reference of the stream names an identity no label of the stream has. *)
Definition dangling (solid : list SolidAsm) (mid : MarkId) : Prop :=
  (exists r w, SizedRef r w ∈ solid /\ mid ∈ ref_ids r) /\ S_Mark mid ∉ solid.

(** The same stream with some references narrower: the left step is the
    right one, a reference having a width that is not larger. *)
Inductive narrower_step : SolidAsm -> SolidAsm -> Prop :=
| narrower_op o : narrower_step (S_Op o) (S_Op o)
| narrower_mark mid : narrower_step (S_Mark mid) (S_Mark mid)
| narrower_bytes b : narrower_step (S_bytes b) (S_bytes b)
| narrower_ref r w' w : w' <= w -> narrower_step (SizedRef r w') (SizedRef r w).

(** The size of the whole stream. *)
Definition total_size (solid : list SolidAsm) : Z := sum (map get_size solid).

(** Every reference is at least one byte wide, and its value under the
    offsets of the stream is not negative and needs no more than its width. *)
Definition widths_sufficient (solid : list SolidAsm) : Prop :=
  forall r w, SizedRef r w ∈ solid ->
    1 <= w /\
    exists v, ref_value (get_solid_offsets solid) r = Ok v /\
      0 <= v /\ needed_bytes v <= w.

(** The bytecode holds [chunk] at byte offset [offset]. *)
Definition placed_at (bytecode : list byte) (offset : Z) (chunk : list byte) : Prop :=
  exists before after, bytecode = before ++ chunk ++ after /\ len before = offset.

(** Position [k] holds the label of [mid] that counts: the last one. *)
Definition last_label (solid : list SolidAsm) (mid : MarkId) (k : nat) : Prop :=
  solid !! k = Some (S_Mark mid) /\
  forall j, (k < j)%nat -> solid !! j <> Some (S_Mark mid).


(** * Properties *)

(** ** C2: the minimum-width function *)

Lemma needed_bytes_pos x : 1 <= needed_bytes x.
Proof. unfold needed_bytes. lia. Qed.

Lemma needed_bytes_positive_arg x :
  0 < x -> needed_bytes x = Z.log2 x / 8 + 1.
Proof.
  intros Hx. unfold needed_bytes, bit_length.
  destruct (Z.eqb_spec x 0) as [->|_]; [lia|].
  rewrite Z.abs_eq by lia.
  pose proof (Z.log2_nonneg x) as Hlog.
  replace (Z.log2 x + 1 + 7) with (Z.log2 x + 1 * 8) by lia.
  rewrite Z.div_add by lia.
  pose proof (Z.div_pos (Z.log2 x) 8 Hlog ltac:(lia)). lia.
Qed.

Lemma needed_bytes_bounds x :
  0 < x -> 2 ^ (8 * (needed_bytes x - 1)) <= x < 2 ^ (8 * needed_bytes x).
Proof.
  intros Hx. rewrite needed_bytes_positive_arg by done.
  pose proof (Z.log2_spec x Hx) as [Hlo Hhi].
  pose proof (Z.log2_nonneg x) as Hlog.
  pose proof (Z.mul_div_le (Z.log2 x) 8 ltac:(lia)) as Hdown.
  pose proof (Z.mul_succ_div_gt (Z.log2 x) 8 ltac:(lia)) as Hup.
  pose proof (Z.div_pos (Z.log2 x) 8 Hlog ltac:(lia)) as Hq.
  split.
  - etrans; [|exact Hlo].
    apply Z.pow_le_mono_r; lia.
  - eapply Z.lt_le_trans; [exact Hhi|].
    apply Z.pow_le_mono_r; lia.
Qed.

(** Every non-negative value fits in [needed_bytes] bytes. *)
Lemma needed_bytes_fits x : 0 <= x -> x < 2 ^ (8 * needed_bytes x).
Proof.
  intros Hx. destruct (decide (x = 0)) as [->|Hne]; [done|].
  apply needed_bytes_bounds. lia.
Qed.

Lemma needed_bytes_small x : 0 <= x <= 255 -> needed_bytes x = 1.
Proof.
  intros [H0 H255]. destruct (decide (x = 0)) as [->|Hne]; [done|].
  rewrite needed_bytes_positive_arg by lia.
  assert (Z.log2 x < 8) as Hlt.
  { apply Z.log2_lt_pow2; [lia|]. change (2 ^ 8) with 256. lia. }
  pose proof (Z.log2_nonneg x).
  rewrite Z.div_small by lia. done.
Qed.



(** ** C3: the solidifier *)

Lemma sum_from (l : list Z) (a : Z) : fold_left Z.add l a = a + sum l.
Proof.
  unfold sum. revert a. induction l as [|x l IH]; intros a; simpl; [lia|].
  rewrite (IH (a + x)), (IH (0 + x)). lia.
Qed.

Lemma sum_nil : sum [] = 0.
Proof. reflexivity. Qed.

Lemma sum_cons x l : sum (x :: l) = x + sum l.
Proof. unfold sum at 1. simpl. apply sum_from. Qed.

Lemma sum_app l1 l2 : sum (l1 ++ l2) = sum l1 + sum l2.
Proof.
  induction l1 as [|x l1 IH]; simpl; [rewrite sum_nil; lia|].
  rewrite !sum_cons, IH. lia.
Qed.

Lemma len_nonneg {A} (l : list A) : 0 <= len l.
Proof. unfold len. lia. Qed.

Lemma min_static_size_nonneg step : 0 <= min_static_size step.
Proof. destruct step; simpl; try pose proof (len_nonneg (extra_data o)); try pose proof (len_nonneg b); lia. Qed.

Lemma ref_count_cons step asm :
  ref_count (step :: asm) = Z.b2z (is_ref step) + ref_count asm.
Proof. unfold ref_count. simpl. apply sum_cons. Qed.

Lemma min_static_len_cons step asm :
  min_static_len (step :: asm) = min_static_size step + min_static_len asm.
Proof. unfold min_static_len. simpl. apply sum_cons. Qed.

(** Every reference is counted once in the static length. *)
Lemma ref_count_le_len asm : 0 <= ref_count asm <= min_static_len asm.
Proof.
  induction asm as [|step asm IH].
  - by vm_compute.
  - rewrite ref_count_cons, min_static_len_cons.
    pose proof (min_static_size_nonneg step).
    destruct step; simpl in *; lia.
Qed.

Lemma square_lt_pow2 n : 0 <= n -> (n + 1) * (n + 1) <= 2 ^ (8 * (n + 1)).
Proof.
  intros Hn.
  assert (n + 1 < 2 ^ (n + 1)) as Hlin by (apply Z.pow_gt_lin_r; lia).
  assert (2 ^ (n + 1) * 2 ^ (n + 1) <= 2 ^ (8 * (n + 1))) as Hpow.
  { rewrite <- Z.pow_add_r by lia. apply Z.pow_le_mono_r; lia. }
  nia.
Qed.

(** What the [while] loop computes: started at [w0] with every smaller width
    failing, it stops at the least width that passes, provided some width in
    reach of the bound passes. *)
Lemma dest_bytes_loop_least bound L R w0 :
  0 <= w0 ->
  2 ^ (8 * (w0 + Z.of_nat bound)) - 1 >= L + (w0 + Z.of_nat bound) * R ->
  let w := dest_bytes_loop bound L R w0 in
  w0 <= w /\ L + w * R <= 2 ^ (8 * w) - 1 /\
  forall w', w0 <= w' < w -> 2 ^ (8 * w') - 1 < L + w' * R.
Proof.
  revert w0. induction bound as [|bound IH]; intros w0 Hw0 Hend; simpl.
  - replace (w0 + Z.of_nat 0) with w0 in Hend by lia. split; [lia|]. split; [lia|].
    intros w' Hw'. lia.
  - rewrite Z.shiftl_1_l.
    destruct (Z.ltb_spec (2 ^ (8 * w0) - 1) (L + w0 * R)) as [Hlt|Hge].
    + destruct (IH (w0 + 1)) as (Hle & Hok & Hleast); [lia| |].
      { replace (w0 + 1 + Z.of_nat bound) with (w0 + Z.of_nat (S bound)) by lia. done. }
      split; [lia|]. split; [done|].
      intros w' Hw'. destruct (decide (w' = w0)) as [->|]; [done|].
      apply Hleast. lia.
    + split; [lia|]. split; [lia|]. intros w' Hw'. lia.
Qed.

(** The loop of [get_min_static_size_bytes] leaves through its condition,
    with the least width the condition accepts. *)
Lemma dest_bytes_loop_exits asm :
  let L := min_static_len asm in
  let R := ref_count asm in
  let w := get_min_static_size_bytes asm in
  1 <= w /\ L + w * R <= 2 ^ (8 * w) - 1 /\
  forall w', 1 <= w' < w -> 2 ^ (8 * w') - 1 < L + w' * R.
Proof.
  intros L R w. subst w. unfold get_min_static_size_bytes. fold L R.
  pose proof (ref_count_le_len asm) as [HR HRL]. fold L R in HR, HRL.
  apply dest_bytes_loop_least; [lia|].
  rewrite Z2Nat.id by lia.
  pose proof (square_lt_pow2 L ltac:(lia)).
  replace (1 + L) with (L + 1) by lia. nia.
Qed.

Lemma asm_to_solid_shape w asm : Forall2 (solidified_at w) asm (map (solidify w) asm).
Proof.
  induction asm as [|step asm IH]; simpl; constructor; [|done].
  destruct step; constructor.
Qed.

(** The [ref_count] of the code is the number of reference steps. *)
Lemma ref_count_spec asm : ref_count asm = reference_count asm.
Proof.
  unfold reference_count, len.
  induction asm as [|step asm IH]; [done|].
  rewrite ref_count_cons, IH.
  destruct step as [o|mid|r|b];
    [change (reference_steps (A_Op o :: asm)) with (reference_steps asm)
    |change (reference_steps (A_Mark mid :: asm)) with (reference_steps asm)
    |change (reference_steps (A_Ref r :: asm)) with (r :: reference_steps asm);
     rewrite length_cons
    |change (reference_steps (A_bytes b :: asm)) with (reference_steps asm)];
    cbn [is_ref Z.b2z]; lia.
Qed.

(** The [min_static_len] of the code is the static length of the stream. *)
Lemma min_static_len_spec asm : min_static_len asm = static_length asm.
Proof.
  induction asm as [|step asm IH]; [done|].
  rewrite min_static_len_cons, IH. destruct step; simpl; lia.
Qed.

(** C3: [asm_to_solid] picks the least width [w >= 1] with
    [2^(8w) - 1 >= L + w*R], where [L] is the sum of the minimum static sizes
    of the steps (an instruction its opcode byte and immediate, raw bytes
    their length, a reference 1 byte, a label nothing) and [R] the number of
    reference steps; when [w <= 6] it returns the stream with every reference
    wrapped as [SizedRef _ w] and every other step in place and unchanged,
    and when [w > 6] it fails.  This holds of every stream, validated or
    not. *)
Theorem asm_to_solid_spec (asm : list Asm) :
  let L := static_length asm in
  let R := reference_count asm in
  exists w : Z,
    get_min_static_size_bytes asm = w /\
    1 <= w /\
    L + w * R <= 2 ^ (8 * w) - 1 /\
    (forall w', 1 <= w' < w -> 2 ^ (8 * w') - 1 < L + w' * R) /\
    (w <= 6 ->
       exists solid, asm_to_solid asm = Ok solid /\
         Forall2 (solidified_at w) asm solid) /\
    (6 < w -> asm_to_solid asm = Raise (AssertionError No_message)).
Proof.
  intros L R. exists (get_min_static_size_bytes asm).
  destruct (dest_bytes_loop_exits asm) as (H1 & Hok & Hleast).
  rewrite min_static_len_spec, ref_count_spec in Hok, Hleast. fold L R in Hok, Hleast.
  split; [done|]. split; [done|]. split; [done|]. split; [done|].
  unfold asm_to_solid. split.
  - intros Hle. exists (map (solidify (get_min_static_size_bytes asm)) asm).
    split; [|apply asm_to_solid_shape].
    destruct (Z.leb_spec (get_min_static_size_bytes asm) 6); [done|lia].
  - intros Hgt.
    destruct (Z.leb_spec (get_min_static_size_bytes asm) 6); [lia|done].
Qed.

(** A reference over 254 bytes: [L = 255], [R = 1], and one byte is not
    enough ([255 < 255 + 1]), so the width is 2. *)
Example asm_to_solid_254_bytes :
  static_length [A_Ref (MarkRef ([], 0)); A_bytes (repeat Byte.x00 254); A_Mark ([], 0)] = 255 /\
  reference_count [A_Ref (MarkRef ([], 0)); A_bytes (repeat Byte.x00 254); A_Mark ([], 0)] = 1 /\
  asm_to_solid [A_Ref (MarkRef ([], 0)); A_bytes (repeat Byte.x00 254); A_Mark ([], 0)]
  = Ok [SizedRef (MarkRef ([], 0)) 2; S_bytes (repeat Byte.x00 254); S_Mark ([], 0)].
Proof. by vm_compute. Qed.


(** ** C1: what the validator accepts *)

Lemma contains_true {V} (d : gmap MarkId V) k : contains d k = true <-> is_Some (d !! k).
Proof. unfold contains. apply bool_decide_eq_true. Qed.

Lemma contains_false {V} (d : gmap MarkId V) k : contains d k = false <-> d !! k = None.
Proof.
  unfold contains. rewrite bool_decide_eq_false. rewrite eq_None_not_Some. done.
Qed.

Lemma elem_of_enumerate_from {A} (l : list A) n i x :
  (i, x) ∈ enumerate_from n l <-> exists j, i = (n + j)%nat /\ l !! j = Some x.
Proof.
  revert n. induction l as [|y l IH]; intros n; simpl.
  - split; [intros H; by apply elem_of_nil in H | by intros (j & _ & H)].
  - rewrite elem_of_cons, IH. split.
    + intros [[= -> ->] | (j & -> & Hj)]; [exists 0%nat | exists (S j)];
        (split; [lia|done]).
    + intros ([|j] & -> & Hj); simpl in Hj.
      * left. f_equal; [lia | congruence].
      * right. exists j. split; [lia|done].
Qed.

Lemma elem_of_mark_entries n asm mid i :
  (mid, i) ∈ mark_entries_of (enumerate_from n asm) <->
  exists j, i = (n + j)%nat /\ asm !! j = Some (A_Mark mid).
Proof.
  unfold mark_entries_of. rewrite list_elem_of_omap. split.
  - intros ([i' step] & Hin & Hf). apply elem_of_enumerate_from in Hin.
    destruct Hin as (j & -> & Hj). destruct step; try done.
    injection Hf as -> <-. eauto.
  - intros (j & -> & Hj). exists ((n + j)%nat, A_Mark mid). split; [|done].
    apply elem_of_enumerate_from. eauto.
Qed.

Lemma mark_entries_keys n asm :
  (mark_entries_of (enumerate_from n asm)).*1 = mark_ids asm.
Proof.
  revert n. induction asm as [|step asm IH]; intros n; [done|].
  unfold mark_entries_of, mark_ids in *. simpl.
  destruct step; simpl; rewrite ?IH; done.
Qed.

Lemma mark_entries_indices_NoDup n asm :
  NoDup (mark_entries_of (enumerate_from n asm)).*2.
Proof.
  revert n. induction asm as [|step asm IH]; intros n; [constructor|].
  assert (NoDup (mark_entries_of (enumerate_from (S n) asm)).*2) as Hrest by apply IH.
  unfold mark_entries_of in *. simpl.
  destruct step; simpl; try done.
  apply NoDup_cons. split; [|done].
  intros Hin. apply list_elem_of_fmap in Hin as ([mid' i] & Heq & Hin).
  simpl in Heq. subst i.
  apply (elem_of_mark_entries (S n)) in Hin as (j & Hj & _). lia.
Qed.

Lemma elem_of_mark_ids asm mid : mid ∈ mark_ids asm <-> exists i, label_at asm mid i.
Proof.
  unfold mark_ids, label_at. rewrite list_elem_of_omap. split.
  - intros (step & Hin & Hf). destruct step; try done. injection Hf as ->.
    by apply list_elem_of_lookup in Hin.
  - intros (i & Hi). exists (A_Mark mid). split; [|done].
    by eapply list_elem_of_lookup_2.
Qed.

(** Under distinct identities a label has one position. *)
Lemma label_at_unique asm mid i j :
  labels_distinct asm -> label_at asm mid i -> label_at asm mid j -> i = j.
Proof.
  unfold labels_distinct, label_at.
  revert i j. induction asm as [|step asm IH]; intros i j Hnd Hi Hj; [done|].
  assert (forall k, asm !! k = Some (A_Mark mid) -> mid ∈ mark_ids asm) as Hin.
  { intros k Hk. apply elem_of_mark_ids. by exists k. }
  destruct i as [|i], j as [|j]; simpl in *; [done| | |].
  - injection Hi as ->. unfold mark_ids in Hnd. simpl in Hnd.
    apply NoDup_cons in Hnd as [Hnotin _]. destruct Hnotin. by eapply Hin.
  - injection Hj as ->. unfold mark_ids in Hnd. simpl in Hnd.
    apply NoDup_cons in Hnd as [Hnotin _]. destruct Hnotin. by eapply Hin.
  - f_equal. apply IH; [|done..].
    unfold mark_ids in Hnd. simpl in Hnd.
    destruct step; try done. by apply NoDup_cons in Hnd as [_ ?].
Qed.

Lemma build_unique_dict_from_Ok {V} (d d' : gmap MarkId V) kvs on_dup :
  build_unique_dict_from d kvs on_dup = Ok d' ->
  NoDup kvs.*1 /\
  (forall k, k ∈ kvs.*1 -> d !! k = None) /\
  (forall k v, d' !! k = Some v <-> (k, v) ∈ kvs \/ d !! k = Some v).
Proof.
  revert d. induction kvs as [|[k0 v0] kvs IH]; intros d; simpl.
  - intros [= ->]. split; [constructor|]. split.
    + intros k Hk. by apply elem_of_nil in Hk.
    + intros k v. rewrite elem_of_nil. tauto.
  - unfold set_unique. destruct (contains d k0) eqn:Hc; simpl; [done|].
    apply contains_false in Hc. intros Hrec.
    apply IH in Hrec as (Hnd & Hfresh & Hlook).
    assert (k0 ∉ kvs.*1) as Hk0.
    { intros Hin. apply Hfresh in Hin. by rewrite lookup_insert_eq in Hin. }
    split; [by apply NoDup_cons|]. split.
    + intros k [->|Hin]%elem_of_cons; [done|].
      specialize (Hfresh k Hin).
      destruct (decide (k0 = k)) as [->|Hne]; [done|].
      by rewrite lookup_insert_ne in Hfresh.
    + intros k v. rewrite Hlook, elem_of_cons.
      destruct (decide (k0 = k)) as [->|Hne].
      * rewrite lookup_insert_eq, Hc. split.
        -- intros [Hin|[= ->]]; [|by left; left].
           destruct Hk0. apply list_elem_of_fmap. by exists (k, v).
        -- intros [[[= ->]|Hin]|?]; [by right|by left|done].
      * rewrite lookup_insert_ne by done. split.
        -- intros [?|?]; [by left; right|by right].
        -- intros [[[= ? ?]|?]|?]; [done|by left|by right].
Qed.

Lemma build_unique_dict_from_Raise {V} (d : gmap MarkId V) kvs on_dup e :
  build_unique_dict_from d kvs on_dup = Raise e ->
  exists pre k v post,
    kvs = pre ++ (k, v) :: post /\
    e = AssertionError (on_dup k) /\
    (is_Some (d !! k) \/ k ∈ pre.*1).
Proof.
  revert d. induction kvs as [|[k0 v0] kvs IH]; intros d; simpl; [done|].
  unfold set_unique. destruct (contains d k0) eqn:Hc; simpl.
  - intros [= <-]. apply contains_true in Hc.
    exists [], k0, v0, kvs. split; [done|]. split; [done|]. by left.
  - intros Hrec. apply IH in Hrec as (pre & k & v & post & -> & -> & Hwhy).
    exists ((k0, v0) :: pre), k, v, post. split; [done|]. split; [done|].
    destruct (decide (k0 = k)) as [->|Hne].
    + right. simpl. apply elem_of_cons. by left.
    + destruct Hwhy as [Hsome|Hin].
      * left. by rewrite lookup_insert_ne in Hsome.
      * right. simpl. apply elem_of_cons. by right.
Qed.

Lemma validate_steps_Ok indices n asm :
  validate_steps indices (enumerate_from n asm) = Ok tt <->
  forall j step, asm !! j = Some step -> validate_step indices (n + j) step = Ok tt.
Proof.
  revert n. induction asm as [|step0 asm IH]; intros n; simpl.
  - split; [by intros _ j step H | done].
  - destruct (validate_step indices n step0) as [[]|e] eqn:Hstep; simpl.
    + rewrite IH. split.
      * intros Hall [|j] step Hj; simpl in Hj.
        -- injection Hj as <-. by rewrite Nat.add_0_r.
        -- replace (n + S j)%nat with (S n + j)%nat by lia. by apply Hall.
      * intros Hall j step Hj.
        replace (S n + j)%nat with (n + S j)%nat by lia. by apply Hall.
    + split; [done|]. intros Hall.
      specialize (Hall 0%nat step0 eq_refl). rewrite Nat.add_0_r in Hall. congruence.
Qed.

Lemma validate_steps_Raise indices n asm e :
  validate_steps indices (enumerate_from n asm) = Raise e ->
  exists j step, asm !! j = Some step /\ validate_step indices (n + j) step = Raise e.
Proof.
  revert n. induction asm as [|step0 asm IH]; intros n; simpl; [done|].
  destruct (validate_step indices n step0) as [[]|e0] eqn:Hstep; simpl.
  - intros (j & step & Hj & Hraise)%IH. exists (S j), step. split; [done|].
    by replace (n + S j)%nat with (S n + j)%nat by lia.
  - intros [= <-]. exists 0%nat, step0. split; [done|]. by rewrite Nat.add_0_r.
Qed.

Section ValidateStep.
Variables (asm : list Asm) (indices : gmap MarkId nat).
Hypothesis indices_spec : forall mid i, indices !! mid = Some i <-> label_at asm mid i.

Lemma indices_contains mid : contains indices mid = true <-> exists i, label_at asm mid i.
Proof.
  rewrite contains_true. unfold is_Some.
  split; intros [i Hi]; exists i; by apply indices_spec.
Qed.

Lemma indices_contains_false mid : contains indices mid = false <-> forall i, ~ label_at asm mid i.
Proof.
  rewrite contains_false. split.
  - intros Hnone i Hi. apply indices_spec in Hi. congruence.
  - intros Hno. destruct (indices !! mid) as [i|] eqn:Hi; [|done].
    apply indices_spec in Hi. by destruct (Hno i).
Qed.

Lemma validate_step_Ok i r :
  validate_step indices i (A_Ref r) = Ok tt <-> reference_resolves asm r.
Proof.
  destruct r as [mid|start end_]; simpl.
  - unfold assert_. destruct (contains indices mid) eqn:Hc.
    + apply indices_contains in Hc. done.
    + split; [done|]. intros Hex. apply indices_contains in Hex. congruence.
  - unfold assert_, getitem.
    destruct (contains indices start) eqn:Hs; simpl.
    2:{ split; [done|]. intros (i_start & _ & Hi & _).
        pose proof (proj1 (indices_contains_false start) Hs i_start). done. }
    destruct (contains indices end_) eqn:He; simpl.
    2:{ split; [done|]. intros (_ & i_end & _ & Hi & _).
        pose proof (proj1 (indices_contains_false end_) He i_end). done. }
    apply contains_true in Hs as [i_start Hs]. apply contains_true in He as [i_end He].
    rewrite Hs, He. simpl.
    destruct (Nat.ltb_spec i_start i_end) as [Hlt|Hge].
    + split; [|done]. intros _. exists i_start, i_end.
      split; [by apply indices_spec|]. split; [by apply indices_spec|done].
    + split; [done|]. intros (i_start' & i_end' & Hs' & He' & Hlt).
      apply indices_spec in Hs', He'. simplify_eq. lia.
Qed.

Lemma validate_step_Raise i step e :
  validate_step indices i step = Raise e ->
  exists r, step = A_Ref r /\ reference_rejected asm i r e.
Proof.
  destruct step as [o|mid|r|b]; simpl; try done.
  intros Hraise. exists r. split; [done|].
  destruct r as [mid|start end_]; simpl in *.
  - unfold assert_ in Hraise. destruct (contains indices mid) eqn:Hc; [done|].
    injection Hraise as <-. left. exists mid.
    split; [by apply list_elem_of_singleton|]. split; [|done].
    by apply indices_contains_false.
  - unfold assert_, getitem in Hraise.
    destruct (contains indices start) eqn:Hs; simpl in Hraise.
    2:{ injection Hraise as <-. left. exists start.
        split; [apply elem_of_cons; by left|]. split; [|done]. by apply indices_contains_false. }
    destruct (contains indices end_) eqn:He; simpl in Hraise.
    2:{ injection Hraise as <-. left. exists end_.
        split; [apply elem_of_cons; right; by apply list_elem_of_singleton|]. split; [|done]. by apply indices_contains_false. }
    apply contains_true in Hs as [i_start Hs]. apply contains_true in He as [i_end He].
    rewrite Hs, He in Hraise. simpl in Hraise.
    destruct (Nat.ltb_spec i_start i_end) as [Hlt|Hge]; [done|].
    injection Hraise as <-. right. exists start, end_, i_start, i_end.
    split; [done|]. split; [by apply indices_spec|].
    split; [by apply indices_spec|]. done.
Qed.
End ValidateStep.

(** The dictionary [validate_asm] builds maps each identity to the position of
    its label, and it is built exactly when the identities are distinct. *)
Lemma validate_asm_indices asm indices :
  build_unique_dict (mark_entries_of (enumerate asm)) default_unique_error = Ok indices ->
  labels_distinct asm /\
  forall mid i, indices !! mid = Some i <-> label_at asm mid i.
Proof.
  unfold build_unique_dict, enumerate. intros Hbuild.
  apply build_unique_dict_from_Ok in Hbuild as (Hnd & _ & Hlook).
  rewrite mark_entries_keys in Hnd. split; [done|].
  intros mid i. rewrite Hlook, lookup_empty, elem_of_mark_entries. unfold label_at.
  split.
  - intros [(j & -> & Hj)|?]; done.
  - intros Hi. left. by exists i.
Qed.

Lemma validate_asm_duplicate asm e :
  build_unique_dict (mark_entries_of (enumerate asm)) default_unique_error = Raise e ->
  duplicate_identity_error asm e.
Proof.
  unfold build_unique_dict, enumerate. intros Hbuild.
  pose proof (mark_entries_indices_NoDup 0 asm) as Hnd.
  apply build_unique_dict_from_Raise in Hbuild as (pre & mid & j & post & Heq & -> & Hwhy).
  destruct Hwhy as [[? Hsome]|Hin]; [by rewrite lookup_empty in Hsome|].
  apply list_elem_of_fmap in Hin as ([mid' i] & Hmid & Hin). simpl in Hmid. subst mid'.
  exists mid, i, j.
  assert ((mid, i) ∈ mark_entries_of (enumerate_from 0 asm)) as Hi.
  { rewrite Heq. apply elem_of_app. by left. }
  assert ((mid, j) ∈ mark_entries_of (enumerate_from 0 asm)) as Hj.
  { rewrite Heq. apply elem_of_app. right. apply elem_of_cons. by left. }
  apply elem_of_mark_entries in Hi as (i' & -> & Hi).
  apply elem_of_mark_entries in Hj as (j' & -> & Hj).
  split; [|done].
  rewrite Heq, fmap_app, fmap_cons in Hnd. simpl in Hnd.
  apply NoDup_app in Hnd as (_ & Hdisj & _).
  intros Hsame. apply (Hdisj (0 + i')%nat).
  - apply list_elem_of_fmap. by exists (mid, (0 + i')%nat).
  - rewrite Hsame. apply elem_of_cons. by left.
Qed.

Lemma duplicate_not_distinct asm e :
  duplicate_identity_error asm e -> ~ labels_distinct asm.
Proof.
  intros (mid & i & j & Hne & Hi & Hj & _) Hnd.
  by pose proof (label_at_unique asm mid i j Hnd Hi Hj).
Qed.

Lemma rejected_not_resolving asm i r e :
  labels_distinct asm -> reference_rejected asm i r e -> ~ reference_resolves asm r.
Proof.
  intros Hnd [(mid & Hin & Hno & _) | (s & e' & i_s & i_e & -> & Hs & He & Hle & _)].
  - destruct r as [mid'|s e']; simpl in *.
    + apply list_elem_of_singleton in Hin as ->. intros [j Hj]. by destruct (Hno j).
    + intros (i_s & i_e & Hs & He & _).
      apply elem_of_cons in Hin as [->|Hin]; [by destruct (Hno i_s)|].
      apply list_elem_of_singleton in Hin as ->. by destruct (Hno i_e).
  - simpl. intros (i_s' & i_e' & Hs' & He' & Hlt).
    pose proof (label_at_unique _ _ _ _ Hnd Hs Hs').
    pose proof (label_at_unique _ _ _ _ Hnd He He'). lia.
Qed.

Lemma rejected_names_position asm i r e :
  reference_rejected asm i r e -> named_position e = Some i.
Proof. by intros [(mid & _ & _ & ->) | (s & e' & i_s & i_e & _ & _ & _ & _ & ->)]. Qed.

(** The three ways [validate_asm] ends. *)
Lemma validate_asm_outcome asm :
  (validate_asm asm = Ok tt /\ well_formed asm) \/
  (exists e, validate_asm asm = Raise e /\
     duplicate_identity_error asm e /\ ~ labels_distinct asm) \/
  (exists e i r, validate_asm asm = Raise e /\ labels_distinct asm /\
     asm !! i = Some (A_Ref r) /\ reference_rejected asm i r e /\
     ~ reference_resolves asm r).
Proof.
  unfold validate_asm.
  destruct (build_unique_dict _ _) as [indices|e] eqn:Hbuild; simpl.
  2:{ right. left. exists e. split; [done|].
      apply validate_asm_duplicate in Hbuild. split; [done|].
      by eapply duplicate_not_distinct. }
  apply validate_asm_indices in Hbuild as [Hnd Hidx].
  destruct (validate_steps indices (enumerate asm)) as [[]|e] eqn:Hsteps.
  - left. split; [done|]. split; [done|].
    intros i r Hi. unfold enumerate in Hsteps.
    apply validate_steps_Ok with (j := i) (step := A_Ref r) in Hsteps; [|done].
    by eapply validate_step_Ok.
  - right. right. unfold enumerate in Hsteps.
    apply validate_steps_Raise in Hsteps as (j & step & Hj & Hraise).
    eapply validate_step_Raise in Hraise as (r & -> & Hwhy); [|done].
    exists e, j, r. split; [done|]. split; [done|]. split; [done|]. split; [done|].
    by eapply rejected_not_resolving.
Qed.

(** C1: [validate_asm] succeeds exactly when the labels have pairwise
    distinct identities and every reference resolves (the labels it names are
    present, and for a distance reference the end label's position is
    strictly greater than the start label's).  Otherwise it raises: a
    duplicate-identity error when an identity repeats, an invalid-reference
    error when the identities are distinct and a reference names an absent
    identity or a misordered pair.  It raises nothing else. *)
Theorem validate_asm_spec (asm : list Asm) :
  (validate_asm asm = Ok tt <-> well_formed asm) /\
  (forall e, validate_asm asm = Raise e ->
     (duplicate_identity_error asm e /\ ~ labels_distinct asm) \/
     (invalid_reference_error asm e /\ labels_distinct asm)) /\
  (~ well_formed asm -> exists e, validate_asm asm = Raise e).
Proof.
  destruct (validate_asm_outcome asm) as
    [[Hok Hwf] | [(e & Hraise & Hdup & Hnd) | (e & i & r & Hraise & Hnd & Hi & Hwhy & Hno)]].
  - split; [by rewrite Hok|]. split; [by rewrite Hok|]. done.
  - assert (~ well_formed asm) as Hnwf by (by intros [? _]).
    split; [by rewrite Hraise|]. split; [|by eauto].
    intros e' He'. rewrite Hraise in He'. injection He' as <-. by left.
  - assert (~ well_formed asm) as Hnwf.
    { intros [_ Hres]. apply Hno. by eapply Hres. }
    split; [by rewrite Hraise|]. split; [|by eauto].
    intros e' He'. rewrite Hraise in He'. injection He' as <-. right.
    split; [by exists i, r|done].
Qed.

(** ** C9: what the error messages name *)

(** C9 as stated fails: the duplicate-identity error of this stream names the
    identity and no position. *)
Lemma duplicate_error_names_no_position :
  validate_asm [A_Mark ([], 0); A_Mark ([], 0)]
    = Raise (AssertionError (Duplicate_key ([], 0))) /\
  validate_asm [A_bytes []; A_Mark ([], 0); A_Mark ([], 0)]
    = Raise (AssertionError (Duplicate_key ([], 0))) /\
  named_position (AssertionError (Duplicate_key ([], 0))) = None.
Proof. by vm_compute. Qed.

(** C9, amended: an invalid-reference error of [validate_asm] names the
    position of the reference step that does not resolve; a duplicate-identity
    error names the identity two labels share, and no position.  The failure
    of the solidifier's width ceiling is a bare assertion: no message, no
    position. *)
Theorem validate_asm_error_position (asm : list Asm) (e : exn) :
  (validate_asm asm = Raise e ->
   (exists i r,
      named_position e = Some i /\
      asm !! i = Some (A_Ref r) /\ ~ reference_resolves asm r) \/
   (exists mid i j,
      e = AssertionError (Duplicate_key mid) /\ named_position e = None /\
      i <> j /\ label_at asm mid i /\ label_at asm mid j)) /\
  (asm_to_solid asm = Raise e ->
   e = AssertionError No_message /\ named_position e = None).
Proof.
  split.
  - intros Hraise.
    destruct (validate_asm_outcome asm) as
      [[Hok _] | [(e' & He' & Hdup & _) | (e' & i & r & He' & _ & Hi & Hwhy & Hno)]].
    + congruence.
    + rewrite Hraise in He'. injection He' as <-. right.
      destruct Hdup as (mid & i & j & Hne & Hi & Hj & ->). by exists mid, i, j.
    + rewrite Hraise in He'. injection He' as <-. left. exists i, r.
      split; [by eapply rejected_names_position|done].
  - unfold asm_to_solid. destruct (_ <=? 6); simpl; [done|]. by intros [= <-].
Qed.

Lemma validate_asm_error_position_witness :
  exists i r,
    named_position (AssertionError (Invalid_reference 1 ([], 7))) = Some i /\
    [A_Mark ([], 0); A_Ref (MarkRef ([], 7))] !! i = Some (A_Ref r) /\
    ~ reference_resolves [A_Mark ([], 0); A_Ref (MarkRef ([], 7))] r.
Proof.
  destruct (proj1 (validate_asm_error_position
              [A_Mark ([], 0); A_Ref (MarkRef ([], 7))]
              (AssertionError (Invalid_reference 1 ([], 7)))) eq_refl)
    as [H | (mid & i & j & Habs & _)]; [exact H | discriminate Habs].
Defined.

(** ** Offsets *)

Lemma offsets_from_dom m off solid mid :
  is_Some (get_solid_offsets_from m off solid !! mid) <->
  is_Some (m !! mid) \/ S_Mark mid ∈ solid.
Proof.
  revert m off. induction solid as [|step solid IH]; intros m off; simpl.
  - rewrite elem_of_nil. tauto.
  - rewrite IH, elem_of_cons. destruct step as [o|mid'|r w|b].
    1,3,4: split;
      [ intros [?|?]; [by left | right; by right]
      | intros [?|[?|?]]; [by left | done | by right] ].
    rewrite lookup_insert_is_Some.
    destruct (decide (mid' = mid)) as [->|Hne].
    + split; [intros _; right; by left | intros _; left; by left].
    + split.
      * intros [[?|[_ ?]]|?]; [done|by left|by (right; right)].
      * intros [?|[[= ?]|?]]; [left; by right|done|by right].
Qed.

Lemma offsets_dom solid mid :
  is_Some (get_solid_offsets solid !! mid) <-> S_Mark mid ∈ solid.
Proof.
  unfold get_solid_offsets. rewrite offsets_from_dom, lookup_empty.
  split; [intros [[? ?]|?]; done | by right].
Qed.

Lemma offsets_from_absent m off solid mid :
  S_Mark mid ∉ solid -> get_solid_offsets_from m off solid !! mid = m !! mid.
Proof.
  revert m off. induction solid as [|step solid IH]; intros m off Hnotin; simpl; [done|].
  apply not_elem_of_cons in Hnotin as [Hne Hnotin].
  rewrite IH by done. destruct step; try done.
  apply lookup_insert_ne. congruence.
Qed.

Lemma offset_of_position_0 solid : offset_of_position solid 0 = 0.
Proof. done. Qed.

Lemma offset_of_position_S step solid i :
  offset_of_position (step :: solid) (S i) = get_size step + offset_of_position solid i.
Proof. unfold offset_of_position. simpl. apply sum_cons. Qed.

(** The offset recorded for a label that occurs once is the size of what
    precedes it. *)
Lemma offsets_from_lookup m off solid mid i :
  solid !! i = Some (S_Mark mid) ->
  (forall j, solid !! j = Some (S_Mark mid) -> j = i) ->
  get_solid_offsets_from m off solid !! mid = Some (off + offset_of_position solid i).
Proof.
  revert m off i. induction solid as [|step solid IH]; intros m off i Hi Huniq; [done|].
  destruct i as [|i]; simpl in *.
  - injection Hi as ->. rewrite offsets_from_absent.
    + rewrite lookup_insert_eq, offset_of_position_0. f_equal. lia.
    + intros [j Hj]%list_elem_of_lookup. by specialize (Huniq (S j) Hj).
  - rewrite offset_of_position_S, Z.add_assoc.
    apply IH; [done|]. intros j Hj. specialize (Huniq (S j) Hj). lia.
Qed.

Lemma get_size_nonneg step :
  (forall r w, step = SizedRef r w -> 0 <= w) -> 0 <= get_size step.
Proof.
  intros Hw. destruct step as [o|mid|r w|b]; simpl.
  - pose proof (len_nonneg (extra_data o)). lia.
  - lia.
  - specialize (Hw r w eq_refl). lia.
  - apply len_nonneg.
Qed.

Lemma widths_nonneg_cons step solid :
  widths_nonneg (step :: solid) ->
  (forall r w, step = SizedRef r w -> 0 <= w) /\ widths_nonneg solid.
Proof.
  intros Hw. split.
  - intros r w ->. apply (Hw r w). apply elem_of_cons. by left.
  - intros r w Hin. apply (Hw r w). apply elem_of_cons. by right.
Qed.

Lemma offset_of_position_mono solid i j :
  widths_nonneg solid -> (i <= j)%nat ->
  offset_of_position solid i <= offset_of_position solid j.
Proof.
  revert i j. induction solid as [|step solid IH]; intros i j Hw Hij.
  - unfold offset_of_position. by rewrite !take_nil.
  - apply widths_nonneg_cons in Hw as [Hstep Hw].
    pose proof (get_size_nonneg step Hstep).
    destruct i as [|i], j as [|j]; try lia.
    + rewrite offset_of_position_0, offset_of_position_S.
      specialize (IH 0%nat j Hw ltac:(lia)). rewrite offset_of_position_0 in IH. lia.
    + rewrite !offset_of_position_S. specialize (IH i j Hw ltac:(lia)). lia.
Qed.

(** A resolved stream has its labels and references where the symbolic
    stream has them. *)
Lemma sized_from_mark asm solid i mid :
  Forall2 sized_from asm solid ->
  asm !! i = Some (A_Mark mid) <-> solid !! i = Some (S_Mark mid).
Proof.
  intros Hsz. split; intros Hi.
  - destruct (Forall2_lookup_l _ _ _ _ _ Hsz Hi) as (y & Hy & Hrel). by inversion Hrel; subst.
  - destruct (Forall2_lookup_r _ _ _ _ _ Hsz Hi) as (x & Hx & Hrel). by inversion Hrel; subst.
Qed.

Lemma sized_from_ref asm solid i r w :
  Forall2 sized_from asm solid ->
  solid !! i = Some (SizedRef r w) -> asm !! i = Some (A_Ref r).
Proof.
  intros Hsz Hi.
  destruct (Forall2_lookup_r _ _ _ _ _ Hsz Hi) as (x & Hx & Hrel). by inversion Hrel; subst.
Qed.

Lemma sized_from_ref_l asm solid i r :
  Forall2 sized_from asm solid ->
  asm !! i = Some (A_Ref r) -> exists w, solid !! i = Some (SizedRef r w).
Proof.
  intros Hsz Hi.
  destruct (Forall2_lookup_l _ _ _ _ _ Hsz Hi) as (y & Hy & Hrel).
  inversion Hrel; subst. by exists w.
Qed.

(** The offset of a label of a well-formed stream, in any resolved stream of
    it. *)
Lemma offsets_lookup_label asm solid mid i :
  labels_distinct asm -> Forall2 sized_from asm solid -> label_at asm mid i ->
  get_solid_offsets solid !! mid = Some (offset_of_position solid i).
Proof.
  intros Hnd Hsz Hi. unfold get_solid_offsets.
  rewrite (offsets_from_lookup _ _ _ mid i); [done| |].
  - by apply (sized_from_mark asm solid).
  - intros j Hj. apply (sized_from_mark asm solid) in Hj; [|done].
    by eapply label_at_unique.
Qed.

Lemma getitem_Some {V} (d : gmap MarkId V) k v : d !! k = Some v -> getitem d k = Ok v.
Proof. unfold getitem. by intros ->. Qed.

(** The value of a reference that resolves. *)
Lemma ref_value_resolved asm solid r :
  labels_distinct asm -> Forall2 sized_from asm solid -> reference_resolves asm r ->
  exists v, ref_value (get_solid_offsets solid) r = Ok v /\
    match r with
    | MarkRef mid => exists i, label_at asm mid i /\ v = offset_of_position solid i
    | MarkDeltaRef start end_ =>
        exists i_start i_end,
          label_at asm start i_start /\ label_at asm end_ i_end /\
          (i_start < i_end)%nat /\
          v = offset_of_position solid i_end - offset_of_position solid i_start
    end.
Proof.
  intros Hnd Hsz Hres. destruct r as [mid|start end_]; simpl in *.
  - destruct Hres as [i Hi]. exists (offset_of_position solid i).
    split; [|by exists i]. apply getitem_Some. by eapply offsets_lookup_label.
  - destruct Hres as (i_s & i_e & Hs & He & Hlt).
    exists (offset_of_position solid i_e - offset_of_position solid i_s).
    split; [|by exists i_s, i_e].
    rewrite (getitem_Some _ _ _ (offsets_lookup_label _ _ _ _ Hnd Hsz He)).
    rewrite (getitem_Some _ _ _ (offsets_lookup_label _ _ _ _ Hnd Hsz Hs)).
    done.
Qed.

Lemma validate_asm_well_formed asm : validate_asm asm = Ok tt -> well_formed asm.
Proof.
  intros Hok.
  destruct (validate_asm_outcome asm) as
    [[_ Hwf] | [(e & Hraise & _) | (e & i & r & Hraise & _)]]; [done|congruence..].
Qed.

(** ** The shrinker *)

Lemma shorten_step_Ok m step changed step' :
  shorten_step m step = Ok (changed, step') ->
  (changed = false -> step' = step) /\
  (forall a, sized_from a step -> sized_from a step').
Proof.
  destruct step as [o|mid|r w|b]; simpl; try (intros [= <- <-]; done).
  destruct (ref_value m r) as [v|e]; simpl; [|done].
  case_bool_decide; intros [= <- <-]; [|done].
  split; [done|]. intros a Ha. inversion Ha; subst. constructor.
Qed.

Lemma shorten_steps_Ok m changed_any acc solid changed_any' out :
  shorten_steps m changed_any acc solid = Ok (changed_any', out) ->
  exists steps,
    out = acc ++ steps /\
    Forall2 (fun step step' => exists changed, shorten_step m step = Ok (changed, step'))
      solid steps /\
    (changed_any' = false -> changed_any = false /\ steps = solid).
Proof.
  revert changed_any acc. induction solid as [|step solid IH]; intros changed_any acc; simpl.
  - intros [= <- <-]. exists []. by rewrite app_nil_r.
  - destruct (shorten_step m step) as [[changed step']|e] eqn:Hstep; simpl; [|done].
    intros (steps & -> & Hall & Hfalse)%IH. exists (step' :: steps).
    split; [by rewrite <- app_assoc|]. split; [constructor; eauto|].
    intros Hc. destruct (Hfalse Hc) as [Hor ->].
    apply orb_false_elim in Hor as [-> ->]. split; [done|].
    f_equal. by apply (shorten_step_Ok m step false step').
Qed.

Lemma shorten_steps_total m changed_any acc solid :
  (forall step, step ∈ solid -> exists r, shorten_step m step = Ok r) ->
  exists r, shorten_steps m changed_any acc solid = Ok r.
Proof.
  revert changed_any acc. induction solid as [|step solid IH]; intros changed_any acc Hall; simpl.
  - eauto.
  - destruct (Hall step) as [[changed step'] ->]; [apply elem_of_cons; by left|]. simpl.
    apply IH. intros x Hx. apply Hall. apply elem_of_cons. by right.
Qed.

Lemma shorten_asm_once_unchanged solid solid' :
  shorten_asm_once solid = Ok (false, solid') -> solid' = solid.
Proof.
  unfold shorten_asm_once. intros (steps & -> & _ & Hfalse)%shorten_steps_Ok.
  by destruct (Hfalse eq_refl) as [_ ->].
Qed.

Lemma shorten_steps_sized m asm solid steps :
  Forall2 sized_from asm solid ->
  Forall2 (fun step step' => exists changed, shorten_step m step = Ok (changed, step'))
    solid steps ->
  Forall2 sized_from asm steps.
Proof.
  intros Hsz. revert steps. induction Hsz as [|a x asm solid Hax Hsz IH]; intros steps Hall.
  - inversion Hall; subst. constructor.
  - inversion Hall as [|? y ? steps' [changed Hstep] Hall']; subst.
    constructor; [|by apply IH].
    by apply (shorten_step_Ok _ _ _ _ Hstep).
Qed.

Lemma shorten_asm_once_sized asm solid changed_any solid' :
  Forall2 sized_from asm solid ->
  shorten_asm_once solid = Ok (changed_any, solid') ->
  Forall2 sized_from asm solid'.
Proof.
  unfold shorten_asm_once. intros Hsz (steps & -> & Hall & _)%shorten_steps_Ok. simpl.
  by eapply shorten_steps_sized.
Qed.

(** ** C5: a pass that changes nothing is a fixed point *)

(** C5: when [shorten_asm_once] reports no change, the stream it returns is
    the stream it was given, and a pass over it reports no change again and
    returns it again. *)
Theorem shorten_asm_once_fixed_point (solid solid' : list SolidAsm) :
  shorten_asm_once solid = Ok (false, solid') ->
  shorten_asm_once solid' = Ok (false, solid') /\ solid' = solid.
Proof.
  intros Hpass. pose proof (shorten_asm_once_unchanged _ _ Hpass) as ->. done.
Qed.

Lemma shorten_asm_once_fixed_point_witness :
  shorten_asm_once
    [SizedRef (MarkRef ([], 0)) 1; S_bytes [Byte.x00; Byte.x01]; S_Mark ([], 0)]
  = Ok (false,
        [SizedRef (MarkRef ([], 0)) 1; S_bytes [Byte.x00; Byte.x01]; S_Mark ([], 0)]).
Proof.
  exact (proj1 (shorten_asm_once_fixed_point
    [SizedRef (MarkRef ([], 0)) 1; S_bytes [Byte.x00; Byte.x01]; S_Mark ([], 0)]
    [SizedRef (MarkRef ([], 0)) 1; S_bytes [Byte.x00; Byte.x01]; S_Mark ([], 0)]
    eq_refl)).
Defined.

(** ** C10: the offset lookups succeed *)

Lemma solidified_sized w a step : solidified_at w a step -> sized_from a step.
Proof. intros H; inversion H; constructor. Qed.

Lemma asm_to_solid_sized asm solid :
  asm_to_solid asm = Ok solid -> Forall2 sized_from asm solid.
Proof.
  unfold asm_to_solid. destruct (_ <=? 6); simpl; [|done]. intros [= <-].
  eapply Forall2_impl; [apply asm_to_solid_shape|]. apply solidified_sized.
Qed.

Lemma shrink_reachable_sized asm solid :
  shrink_reachable asm solid -> Forall2 sized_from asm solid.
Proof.
  induction 1 as [solid Hsolid | solid changed_any solid' _ IH Hpass].
  - by apply asm_to_solid_sized.
  - by eapply shorten_asm_once_sized.
Qed.

(** In a resolved stream of a well-formed stream every reference has a
    value. *)
Lemma ref_value_defined asm solid r w :
  well_formed asm -> Forall2 sized_from asm solid -> SizedRef r w ∈ solid ->
  exists v, ref_value (get_solid_offsets solid) r = Ok v.
Proof.
  intros [Hnd Hres] Hsz [i Hi]%list_elem_of_lookup.
  apply (sized_from_ref asm) in Hi; [|done].
  destruct (ref_value_resolved asm solid r Hnd Hsz (Hres i r Hi)) as (v & Hv & _).
  by exists v.
Qed.

Lemma ref_value_keys m r v mid :
  ref_value m r = Ok v -> mid ∈ ref_ids r -> is_Some (m !! mid).
Proof.
  destruct r as [mid'|start end_]; simpl; unfold getitem.
  - intros Hv Hin. apply list_elem_of_singleton in Hin as ->.
    destruct (m !! mid'); [done|discriminate].
  - intros Hv Hin. destruct (m !! end_) eqn:He; [|discriminate]. simpl in Hv.
    destruct (m !! start) eqn:Hs; [|discriminate].
    apply elem_of_cons in Hin as [->|Hin]; [by eexists|].
    apply list_elem_of_singleton in Hin as ->. by eexists.
Qed.

Lemma shorten_asm_once_total asm solid :
  well_formed asm -> Forall2 sized_from asm solid ->
  exists changed_any solid', shorten_asm_once solid = Ok (changed_any, solid').
Proof.
  intros Hwf Hsz. unfold shorten_asm_once.
  destruct (shorten_steps_total (get_solid_offsets solid) false [] solid) as [[c s'] Hr].
  - intros step Hin. destruct step as [o|mid|r w|b]; simpl; eauto.
    destruct (ref_value_defined asm solid r w Hwf Hsz Hin) as [v ->]. simpl.
    case_bool_decide; eauto.
  - eauto.
Qed.

Lemma to_bytes_Raise value length e :
  to_bytes value length = Raise e -> e = ValueError \/ e = OverflowError.
Proof.
  unfold to_bytes. repeat case_match; intros [= <-]; auto.
Qed.

Lemma emit_steps_Raise `{OpcodeTable} m acc solid e :
  emit_steps m acc solid = Raise e ->
  exists step, step ∈ solid /\ emit_step m step = Raise e.
Proof.
  revert acc. induction solid as [|step solid IH]; intros acc; simpl; [done|].
  destruct (emit_step m step) as [bs|e'] eqn:Hstep; simpl.
  - intros (x & Hx & Hraise)%IH. exists x. split; [|done]. apply elem_of_cons. by right.
  - intros [= <-]. exists step. split; [|done]. apply elem_of_cons. by left.
Qed.

(** C10: for a stream that passes [validate_asm], in the solidified stream and
    in every stream reached from it by passes of [shorten_asm_once], every
    identity a sized reference names is a key of [get_solid_offsets]; so
    [shorten_asm_once] returns, and [solid_asm_to_bytecode] raises no
    [KeyError]. *)
Theorem offset_lookups_succeed `{OpcodeTable} (asm : list Asm) (solid : list SolidAsm) :
  validate_asm asm = Ok tt ->
  shrink_reachable asm solid ->
  (forall r w mid,
     SizedRef r w ∈ solid -> mid ∈ ref_ids r ->
     is_Some (get_solid_offsets solid !! mid)) /\
  (exists changed_any solid', shorten_asm_once solid = Ok (changed_any, solid')) /\
  (forall k, solid_asm_to_bytecode solid <> Raise (KeyError k)).
Proof.
  intros Hwf%validate_asm_well_formed Hsz%shrink_reachable_sized.
  split; [|split].
  - intros r w mid Hin Hmid.
    destruct (ref_value_defined asm solid r w Hwf Hsz Hin) as [v Hv].
    by eapply ref_value_keys.
  - by eapply shorten_asm_once_total.
  - intros k Hraise. unfold solid_asm_to_bytecode in Hraise.
    apply emit_steps_Raise in Hraise as (step & Hin & Hraise).
    destruct step as [o|mid|r w|b]; simpl in Hraise; try done.
    destruct (ref_value_defined asm solid r w Hwf Hsz Hin) as [v Hv].
    rewrite Hv in Hraise. simpl in Hraise.
    destruct (to_bytes v w) as [data|e] eqn:Hdata; simpl in Hraise; [done|].
    injection Hraise as ->. by destruct (to_bytes_Raise _ _ _ Hdata).
Qed.

Lemma offset_lookups_succeed_witness :
  exists changed_any solid',
    shorten_asm_once
      [S_Mark ([], 0); SizedRef (MarkRef ([], 0)) 1; S_bytes (repeat Byte.x00 300)]
    = Ok (changed_any, solid').
Proof.
  exact (proj1 (proj2 (@offset_lookups_succeed evm_table
    [A_Mark ([], 0); A_Ref (MarkRef ([], 0)); A_bytes (repeat Byte.x00 300)]
    [S_Mark ([], 0); SizedRef (MarkRef ([], 0)) 1; S_bytes (repeat Byte.x00 300)]
    eq_refl
    (reachable_pass
       [A_Mark ([], 0); A_Ref (MarkRef ([], 0)); A_bytes (repeat Byte.x00 300)]
       [S_Mark ([], 0); SizedRef (MarkRef ([], 0)) 2; S_bytes (repeat Byte.x00 300)]
       true
       [S_Mark ([], 0); SizedRef (MarkRef ([], 0)) 1; S_bytes (repeat Byte.x00 300)]
       (reachable_solid
          [A_Mark ([], 0); A_Ref (MarkRef ([], 0)); A_bytes (repeat Byte.x00 300)]
          [S_Mark ([], 0); SizedRef (MarkRef ([], 0)) 2; S_bytes (repeat Byte.x00 300)]
          eq_refl)
       eq_refl)))).
Defined.

(** ** C8: the distance of a distance reference *)

(** C8 as stated fails: this stream passes [validate_asm], and its distance
    reference resolves to zero, the two labels being adjacent. *)
Lemma zero_distance_accepted :
  validate_asm
    [A_Mark ([], 0); A_Mark ([], 1); A_Ref (MarkDeltaRef ([], 0) ([], 1))] = Ok tt /\
  asm_to_solid
    [A_Mark ([], 0); A_Mark ([], 1); A_Ref (MarkDeltaRef ([], 0) ([], 1))]
    = Ok [S_Mark ([], 0); S_Mark ([], 1); SizedRef (MarkDeltaRef ([], 0) ([], 1)) 1] /\
  ref_value
    (get_solid_offsets
       [S_Mark ([], 0); S_Mark ([], 1); SizedRef (MarkDeltaRef ([], 0) ([], 1)) 1])
    (MarkDeltaRef ([], 0) ([], 1)) = Ok 0.
Proof. by vm_compute. Qed.

(** C8, amended: in a stream that passes [validate_asm], under every
    assignment of non-negative widths to its references, a distance reference
    names two different labels, the end label at the greater position, and
    resolves to [offset(end) - offset(start)], which is not negative (it may
    be zero). *)
Theorem distance_nonneg (asm : list Asm) (solid : list SolidAsm) (start end_ : MarkId) :
  validate_asm asm = Ok tt ->
  Forall2 sized_from asm solid ->
  widths_nonneg solid ->
  A_Ref (MarkDeltaRef start end_) ∈ asm ->
  exists i_start i_end d,
    label_at asm start i_start /\ label_at asm end_ i_end /\
    (i_start < i_end)%nat /\ start <> end_ /\
    ref_value (get_solid_offsets solid) (MarkDeltaRef start end_) = Ok d /\
    d = offset_of_position solid i_end - offset_of_position solid i_start /\
    0 <= d.
Proof.
  intros [Hnd Hres]%validate_asm_well_formed Hsz Hw [i Hi]%list_elem_of_lookup.
  destruct (ref_value_resolved asm solid _ Hnd Hsz (Hres i _ Hi))
    as (d & Hd & i_s & i_e & Hs & He & Hlt & ->).
  exists i_s, i_e, (offset_of_position solid i_e - offset_of_position solid i_s).
  split; [done|]. split; [done|]. split; [done|]. split.
  - intros ->. pose proof (label_at_unique _ _ _ _ Hnd Hs He). lia.
  - split; [done|]. split; [done|].
    pose proof (offset_of_position_mono solid i_s i_e Hw ltac:(lia)). lia.
Qed.

Lemma distance_nonneg_witness :
  exists i_start i_end d,
    label_at [A_Mark ([], 0); A_bytes [Byte.x00; Byte.x01]; A_Mark ([], 1);
              A_Ref (MarkDeltaRef ([], 0) ([], 1))] ([], 0) i_start /\
    label_at [A_Mark ([], 0); A_bytes [Byte.x00; Byte.x01]; A_Mark ([], 1);
              A_Ref (MarkDeltaRef ([], 0) ([], 1))] ([], 1) i_end /\
    (i_start < i_end)%nat /\ ([], 0) <> (([], 1) : MarkId) /\
    ref_value
      (get_solid_offsets
         [S_Mark ([], 0); S_bytes [Byte.x00; Byte.x01]; S_Mark ([], 1);
          SizedRef (MarkDeltaRef ([], 0) ([], 1)) 3])
      (MarkDeltaRef ([], 0) ([], 1)) = Ok d /\
    d = offset_of_position
          [S_Mark ([], 0); S_bytes [Byte.x00; Byte.x01]; S_Mark ([], 1);
           SizedRef (MarkDeltaRef ([], 0) ([], 1)) 3] i_end
        - offset_of_position
          [S_Mark ([], 0); S_bytes [Byte.x00; Byte.x01]; S_Mark ([], 1);
           SizedRef (MarkDeltaRef ([], 0) ([], 1)) 3] i_start /\
    0 <= d.
Proof.
  apply (distance_nonneg
    [A_Mark ([], 0); A_bytes [Byte.x00; Byte.x01]; A_Mark ([], 1);
     A_Ref (MarkDeltaRef ([], 0) ([], 1))]
    [S_Mark ([], 0); S_bytes [Byte.x00; Byte.x01]; S_Mark ([], 1);
     SizedRef (MarkDeltaRef ([], 0) ([], 1)) 3]).
  - reflexivity.
  - repeat constructor.
  - intros r w Hin. repeat (apply elem_of_cons in Hin as [Hin|Hin]; [by simplify_eq|]).
    by apply elem_of_nil in Hin.
  - repeat (apply elem_of_cons; first [by left | right]).
Defined.

(** ** C4: the emitted length *)

Lemma len_app {A} (l1 l2 : list A) : len (l1 ++ l2) = len l1 + len l2.
Proof. unfold len. rewrite length_app. lia. Qed.

Lemma big_endian_length n v : length (big_endian n v) = n.
Proof.
  revert v. induction n as [|n IH]; intros v; simpl; [done|].
  rewrite length_app, IH. simpl. lia.
Qed.

Lemma to_bytes_Ok value length data :
  to_bytes value length = Ok data ->
  0 <= length /\ 0 <= value < 2 ^ (8 * length) /\
  data = big_endian (Z.to_nat length) value /\ len data = length.
Proof.
  unfold to_bytes.
  destruct (Z.ltb_spec length 0); [done|].
  destruct (Z.ltb_spec value 0); [done|].
  destruct (Z.leb_spec (2 ^ (8 * length)) value); [done|].
  intros [= <-]. unfold len. rewrite big_endian_length.
  split; [lia|]. split; [lia|]. split; [done|]. lia.
Qed.

Lemma to_bytes_fits value length :
  0 <= value < 2 ^ (8 * length) ->
  to_bytes value length = Ok (big_endian (Z.to_nat length) value).
Proof.
  intros [H0 Hlt]. unfold to_bytes.
  destruct (Z.ltb_spec length 0) as [Hneg|_].
  { rewrite Z.pow_neg_r in Hlt by lia. lia. }
  destruct (Z.ltb_spec value 0); [lia|].
  destruct (Z.leb_spec (2 ^ (8 * length)) value); [lia|done].
Qed.

Section EmittedLength.
Context {table : OpcodeTable}.
(** The interface of the opcode table this property is relative to: the
    push made for a [b]-byte immediate encodes to [1 + b] bytes. *)
Hypothesis push_length : forall data, len (get_bytes (create_push data)) = 1 + len data.

Lemma emit_step_length m step bs :
  emit_step m step = Ok bs -> len bs = get_size step.
Proof.
  destruct step as [o|mid|r w|b]; simpl.
  - intros [= <-]. unfold get_bytes, len. rewrite length_cons. lia.
  - by intros [= <-].
  - destruct (ref_value m r) as [v|e]; simpl; [|done].
    destruct (to_bytes v w) as [data|e] eqn:Hdata; simpl; [|done].
    intros [= <-]. rewrite push_length.
    apply to_bytes_Ok in Hdata as (_ & _ & _ & ->). done.
  - by intros [= <-].
Qed.

Lemma emit_steps_length m acc solid bs :
  emit_steps m acc solid = Ok bs -> len bs = len acc + sum (map get_size solid).
Proof.
  revert acc. induction solid as [|step solid IH]; intros acc; simpl.
  - intros [= <-]. rewrite sum_nil. lia.
  - destruct (emit_step m step) as [step_bytes|e] eqn:Hstep; simpl; [|done].
    intros ->%IH. rewrite len_app, sum_cons.
    apply emit_step_length in Hstep. lia.
Qed.

Lemma emit_steps_total m acc solid :
  (forall step, step ∈ solid -> exists bs, emit_step m step = Ok bs) ->
  exists bs, emit_steps m acc solid = Ok bs.
Proof.
  revert acc. induction solid as [|step solid IH]; intros acc Hall; simpl; [eauto|].
  destruct (Hall step) as [bs ->]; [apply elem_of_cons; by left|]. simpl.
  apply IH. intros x Hx. apply Hall. apply elem_of_cons. by right.
Qed.

(** C4: for a resolved stream in which the value of every reference fits in
    its width, [solid_asm_to_bytecode] returns a byte sequence, and its
    length is the sum of the sizes of the steps: [1 + len(immediate)] for
    an instruction, the length of raw bytes, 0 for a label, [1 + width] for
    a sized reference. *)
Theorem emitted_length (solid : list SolidAsm) :
  references_fit solid ->
  exists bytecode,
    solid_asm_to_bytecode solid = Ok bytecode /\
    len bytecode = sum (map get_size solid).
Proof.
  intros Hfit. unfold solid_asm_to_bytecode.
  destruct (emit_steps_total (get_solid_offsets solid) [] solid) as [bs Hbs].
  - intros step Hin. destruct step as [o|mid|r w|b]; simpl; eauto.
    destruct (Hfit r w Hin) as (v & -> & Hv). simpl.
    rewrite to_bytes_fits by done. simpl. eauto.
  - exists bs. split; [done|]. by apply emit_steps_length in Hbs.
Qed.
End EmittedLength.

Lemma evm_table_push_length data :
  len (get_bytes (@create_push evm_table data)) = 1 + len data.
Proof. unfold get_bytes, len. simpl extra_data. rewrite length_cons. lia. Qed.

Lemma emitted_length_witness :
  exists bytecode,
    @solid_asm_to_bytecode evm_table
      [S_Mark ([], 0); SizedRef (MarkRef ([], 1)) 2; S_bytes (repeat Byte.x00 300);
       S_Mark ([], 1); S_Op (mkOp Byte.x5b []);
       SizedRef (MarkDeltaRef ([], 0) ([], 1)) 3] = Ok bytecode /\
    len bytecode =
      sum (map get_size
        [S_Mark ([], 0); SizedRef (MarkRef ([], 1)) 2; S_bytes (repeat Byte.x00 300);
         S_Mark ([], 1); S_Op (mkOp Byte.x5b []);
         SizedRef (MarkDeltaRef ([], 0) ([], 1)) 3]).
Proof.
  apply (@emitted_length evm_table evm_table_push_length).
  intros r w Hin.
  apply elem_of_cons in Hin as [Hin|Hin]; [discriminate Hin|].
  apply elem_of_cons in Hin as [Hin|Hin].
  { injection Hin as -> ->. exists 303. split; [reflexivity|lia]. }
  apply elem_of_cons in Hin as [Hin|Hin]; [discriminate Hin|].
  apply elem_of_cons in Hin as [Hin|Hin]; [discriminate Hin|].
  apply elem_of_cons in Hin as [Hin|Hin]; [discriminate Hin|].
  apply elem_of_cons in Hin as [Hin|Hin].
  { injection Hin as -> ->. exists 303. split; [reflexivity|lia]. }
  by apply elem_of_nil in Hin.
Defined.

(** ** C6: the iteration budget *)

(** A budget that is not zero and only decreases from a negative value never
    stops the loop: the stream returned is one the last pass left unchanged. *)
Lemma shorten_asm_loop_unbounded fuel max_iters solid solid' :
  max_iters < 0 ->
  shorten_asm_loop fuel true max_iters solid = Some (Ok solid') ->
  shorten_asm_once solid' = Ok (false, solid').
Proof.
  revert max_iters solid. induction fuel as [|fuel IH]; intros max_iters solid Hneg; simpl.
  - destruct (Z.eqb_spec max_iters 0); [lia|done].
  - destruct (Z.eqb_spec max_iters 0); [lia|]. simpl.
    destruct (shorten_asm_once solid) as [[changed_any solid1]|e] eqn:Hpass; [|done].
    destruct changed_any.
    + apply IH. lia.
    + pose proof (shorten_asm_once_unchanged _ _ Hpass) as ->.
      destruct fuel; simpl; by intros [= <-].
Qed.

Lemma shorten_asm_loop_negative fuel changed_any max_iters max_iters' solid :
  max_iters < 0 -> max_iters' < 0 ->
  shorten_asm_loop fuel changed_any max_iters solid =
  shorten_asm_loop fuel changed_any max_iters' solid.
Proof.
  revert changed_any max_iters max_iters' solid.
  induction fuel as [|fuel IH]; intros changed_any max_iters max_iters' solid H1 H2; simpl.
  - destruct (Z.eqb_spec max_iters 0), (Z.eqb_spec max_iters' 0); try lia. done.
  - destruct (Z.eqb_spec max_iters 0), (Z.eqb_spec max_iters' 0); try lia.
    destruct changed_any; simpl; [|done].
    destruct (shorten_asm_once solid) as [[c s]|e]; [|done].
    apply IH; lia.
Qed.

(** A budget [max_iters >= 0] allows at most [max_iters] passes. *)
Lemma shorten_asm_loop_bounded fuel changed_any max_iters solid :
  0 <= max_iters <= Z.of_nat fuel ->
  shorten_asm_loop fuel changed_any max_iters solid <> None.
Proof.
  revert changed_any max_iters solid.
  induction fuel as [|fuel IH]; intros changed_any max_iters solid Hm; simpl.
  - destruct (Z.eqb_spec max_iters 0); [|lia]. by rewrite andb_false_r.
  - destruct (changed_any && negb (max_iters =? 0)) eqn:Hcond; [|done].
    apply andb_true_iff in Hcond as [_ Hnz].
    destruct (Z.eqb_spec max_iters 0); [done|].
    destruct (shorten_asm_once solid) as [[c s]|e]; [|done].
    apply IH. lia.
Qed.

(** C6 as stated fails: on this stream of 101 references, which needs 101
    passes, a call of [asm_to_bytecode] that leaves the budget out shrinks
    the first reference to one byte ([PUSH1 0xff]), and a call with a budget
    of 100 leaves it two bytes wide ([PUSH2 0x00ff]). *)
Lemma default_budget_is_not_100 :
  first_bytes 3 (@asm_to_bytecode evm_table 200 (relax_chain 100) None)
    = Some (Ok [Byte.x60; Byte.xff; Byte.x00]) /\
  first_bytes 3 (@asm_to_bytecode evm_table 200 (relax_chain 100) (Some 100))
    = Some (Ok [Byte.x61; Byte.x00; Byte.xff]).
Proof. split; vm_compute; reflexivity. Qed.

(** The two defaults differ: the pipeline's is the negative one. *)
Example pipeline_and_shrinker_defaults :
  asm_to_bytecode_default_max_reduce_iters = -1 /\ shorten_asm_default_max_iters = 100.
Proof. done. Qed.

(** C6, amended: a call of [asm_to_bytecode] that leaves the budget out runs
    the shrinker with the budget -1.  A negative budget never stops the
    shrinker: all negative budgets behave alike, and the stream returned is
    one a pass leaves unchanged.  The budget of 100 is the default of
    [shorten_asm] itself, for a call of [shorten_asm] that leaves the budget
    out; a budget [m >= 0] ends within [m] passes. *)
Theorem unset_budget_is_unbounded `{OpcodeTable} :
  (forall fuel asm,
     asm_to_bytecode fuel asm None = asm_to_bytecode fuel asm (Some (-1))) /\
  (forall fuel solid m,
     m < 0 -> shorten_asm fuel solid (Some m) = shorten_asm fuel solid (Some (-1))) /\
  (forall fuel solid m solid',
     m < 0 -> shorten_asm fuel solid (Some m) = Some (Ok solid') ->
     shorten_asm_once solid' = Ok (false, solid')) /\
  (forall fuel solid,
     shorten_asm fuel solid None = shorten_asm fuel solid (Some 100)) /\
  (forall fuel solid m,
     0 <= m <= Z.of_nat fuel -> shorten_asm fuel solid (Some m) <> None).
Proof.
  split; [done|]. split; [|split; [|split; [done|]]].
  - intros fuel solid m Hm. unfold shorten_asm. simpl.
    by apply shorten_asm_loop_negative.
  - intros fuel solid m solid' Hm. unfold shorten_asm. simpl.
    by apply shorten_asm_loop_unbounded.
  - intros fuel solid m Hm. unfold shorten_asm. simpl.
    by apply shorten_asm_loop_bounded.
Qed.

(** ** Big-endian encoding *)

Lemma Z_of_byte_of_Z z : 0 <= z < 256 -> Z_of_byte (byte_of_Z z) = z.
Proof.
  intros Hz. unfold Z_of_byte, byte_of_Z.
  destruct (Byte.of_N (Z.to_N z)) as [b|] eqn:Hb; simpl.
  - apply Byte.to_of_N in Hb. rewrite Hb. lia.
  - apply Byte.of_N_None_iff in Hb. lia.
Qed.

Lemma from_bytes_snoc data b : from_bytes (data ++ [b]) = from_bytes data * 256 + Z_of_byte b.
Proof. unfold from_bytes. by rewrite fold_left_app. Qed.

Lemma from_bytes_big_endian n v :
  0 <= v < 2 ^ (8 * Z.of_nat n) -> from_bytes (big_endian n v) = v.
Proof.
  revert v. induction n as [|n IH]; intros v Hv.
  - simpl in *. change (2 ^ (8 * 0)) with 1 in Hv. unfold from_bytes. simpl. lia.
  - simpl big_endian. rewrite from_bytes_snoc.
    replace (8 * Z.of_nat (S n)) with (8 + 8 * Z.of_nat n) in Hv by lia.
    rewrite Z.pow_add_r in Hv by lia. change (2 ^ 8) with 256 in Hv.
    rewrite IH.
    + rewrite Z_of_byte_of_Z by (apply Z.mod_pos_bound; lia).
      pose proof (Z.div_mod v 256 ltac:(lia)). lia.
    + split; [apply Z.div_pos; lia|].
      apply Z.div_lt_upper_bound; lia.
Qed.

(** What [to_bytes] returns decodes to the value. *)
Lemma from_bytes_to_bytes value length data :
  to_bytes value length = Ok data -> from_bytes data = value.
Proof.
  intros (Hlen & Hv & -> & _)%to_bytes_Ok.
  apply from_bytes_big_endian. by rewrite Z2Nat.id.
Qed.

(** ** C7: the deploy wrapper *)

Lemma shorten_asm_loop_step fuel max_iters solid :
  max_iters <> 0 ->
  shorten_asm_loop (S fuel) true max_iters solid =
  match shorten_asm_once solid with
  | Raise e => Some (Raise e)
  | Ok (changed_any, solid') => shorten_asm_loop fuel changed_any (max_iters - 1) solid'
  end.
Proof. intros Hne. simpl. by destruct (Z.eqb_spec max_iters 0). Qed.

Lemma needed_bytes_le_6 x : 0 <= x < 2 ^ 48 -> needed_bytes x <= 6.
Proof.
  intros Hx. destruct (decide (x = 0)) as [->|]; [by vm_compute|].
  destruct (needed_bytes_bounds x) as [Hlo _]; [lia|].
  destruct (Z.le_gt_cases (needed_bytes x) 6) as [|Hgt]; [done|].
  assert (2 ^ 48 <= 2 ^ (8 * (needed_bytes x - 1))) by (apply Z.pow_le_mono_r; lia).
  lia.
Qed.

Lemma shorten_asm_loop_stop fuel max_iters solid :
  shorten_asm_loop fuel false max_iters solid = Some (Ok solid).
Proof. by destruct fuel. Qed.

Section Deploy.
Context {table : OpcodeTable} {laws : OpcodeTableLaws table}.

Lemma deploy_validate runtime : validate_asm (deploy_asm runtime) = Ok tt.
Proof. by vm_compute. Qed.

Lemma deploy_min_static_len runtime : min_static_len (deploy_asm runtime) = 7 + len runtime.
Proof.
  unfold deploy_asm. rewrite !min_static_len_cons.
  cbn [min_static_size]. rewrite !create_plain_op_extra_data.
  change (min_static_len []) with 0. change (len (@nil byte)) with 0. lia.
Qed.

Lemma deploy_ref_count runtime : ref_count (deploy_asm runtime) = 2.
Proof. reflexivity. Qed.

Lemma deploy_offsets w_delta w_start runtime :
  get_solid_offsets (deploy_solid w_delta w_start runtime) !! (([], START_SUB_ID) : MarkId)
    = Some (7 + w_delta + w_start) /\
  get_solid_offsets (deploy_solid w_delta w_start runtime) !! (([], END_SUB_ID) : MarkId)
    = Some (7 + w_delta + w_start + len runtime).
Proof.
  unfold get_solid_offsets, deploy_solid.
  cbn [get_solid_offsets_from get_size].
  rewrite !create_plain_op_extra_data. change (len (@nil byte)) with 0.
  split.
  - rewrite lookup_insert_ne by done. rewrite lookup_insert_eq. f_equal. lia.
  - rewrite lookup_insert_eq. f_equal. lia.
Qed.

Lemma deploy_shorten_once w_delta w_start runtime :
  exists changed_any,
  shorten_asm_once (deploy_solid w_delta w_start runtime)
  = Ok (changed_any,
        deploy_solid (needed_bytes (len runtime)) (needed_bytes (7 + w_delta + w_start)) runtime)
  /\ (w_delta = needed_bytes (len runtime) -> w_start = needed_bytes (7 + w_delta + w_start) -> changed_any = false).
Proof.
  unfold shorten_asm_once.
  destruct (deploy_offsets w_delta w_start runtime) as [Hs He].
  set (m := get_solid_offsets _) in *. clearbody m.
  unfold deploy_solid.
  cbn [shorten_steps shorten_step ref_value mbind result_bind].
  unfold getitem. rewrite Hs, He. 
  cbn [mbind result_bind].
  replace (7 + w_delta + w_start + len runtime - (7 + w_delta + w_start))
    with (len runtime) by lia.
  case_bool_decide; cbn [mbind result_bind set_size];
    case_bool_decide; cbn [mbind result_bind set_size app orb];
    eexists; (split; [repeat f_equal; try done; symmetry; by apply dec_stable | intros; congruence]).
Qed.

Lemma deploy_width runtime :
  let w := get_min_static_size_bytes (deploy_asm runtime) in
  1 <= w /\ (len runtime + 19 < 2 ^ 48 -> w <= 6) /\ (2 ^ 48 <= len runtime + 19 -> 6 < w).
Proof.
  intros w. destruct (dest_bytes_loop_exits (deploy_asm runtime)) as (H1 & Hok & Hleast).
  fold w in H1, Hok, Hleast.
  rewrite deploy_min_static_len, deploy_ref_count in Hok, Hleast.
  split; [done|]. split.
  - intros Hlen. destruct (Z.le_gt_cases w 6) as [|Hgt]; [done|].
    specialize (Hleast 6 ltac:(lia)). change (2 ^ (8 * 6)) with (2 ^ 48) in Hleast. lia.
  - intros Hlen. destruct (Z.le_gt_cases w 6) as [Hle|]; [|lia].
    destruct (decide (w = 6)) as [Hw|Hw].
    + rewrite Hw in Hok. change (2 ^ (8 * 6)) with (2 ^ 48) in Hok. lia.
    + assert (2 ^ (8 * w) <= 2 ^ 40) by (apply Z.pow_le_mono_r; lia). lia.
Qed.

Lemma deploy_solidify runtime :
  len runtime + 19 < 2 ^ 48 ->
  exists w, 1 <= w <= 6 /\
    asm_to_solid (deploy_asm runtime) = Ok (deploy_solid w w runtime).
Proof.
  intros Hlen. destruct (deploy_width runtime) as (H1 & H6 & _).
  exists (get_min_static_size_bytes (deploy_asm runtime)). split; [lia|].
  unfold asm_to_solid.
  destruct (Z.leb_spec (get_min_static_size_bytes (deploy_asm runtime)) 6); [done|lia].
Qed.

Lemma deploy_too_long runtime :
  2 ^ 48 <= len runtime + 19 ->
  asm_to_solid (deploy_asm runtime) = Raise (AssertionError No_message).
Proof.
  intros Hlen. destruct (deploy_width runtime) as (_ & _ & H6).
  unfold asm_to_solid.
  destruct (Z.leb_spec (get_min_static_size_bytes (deploy_asm runtime)) 6); [lia|done].
Qed.

Lemma deploy_shorten fuel w runtime :
  (2 <= fuel)%nat -> 1 <= w <= 6 -> len runtime + 19 < 2 ^ 48 ->
  shorten_asm fuel (deploy_solid w w runtime) (Some (-1))
  = Some (Ok (deploy_solid (needed_bytes (len runtime)) 1 runtime)).
Proof.
  intros Hfuel Hw Hlen.
  destruct fuel as [|[|fuel]]; [lia..|].
  pose proof (len_nonneg runtime) as HK.
  pose proof (needed_bytes_pos (len runtime)) as Hnb1.
  pose proof (needed_bytes_le_6 (len runtime) ltac:(lia)) as Hnb6.
  destruct (deploy_shorten_once w w runtime) as (c0 & Hpass0 & _).
  rewrite (needed_bytes_small (7 + w + w)) in Hpass0 by lia.
  destruct (deploy_shorten_once (needed_bytes (len runtime)) 1 runtime) as (c1 & Hpass1 & Hc1).
  rewrite (needed_bytes_small (7 + needed_bytes (len runtime) + 1)) in Hpass1, Hc1 by lia.
  rewrite Hc1 in Hpass1 by done.
  unfold shorten_asm. change (default _ (Some (-1))) with (-1).
  rewrite shorten_asm_loop_step by lia. rewrite Hpass0. destruct c0.
  - rewrite shorten_asm_loop_step by lia. rewrite Hpass1. apply shorten_asm_loop_stop.
  - apply shorten_asm_loop_stop.
Qed.

Lemma deploy_emit runtime :
  len runtime + 19 < 2 ^ 48 ->
  exists length_immediate start_immediate,
    solid_asm_to_bytecode (deploy_solid (needed_bytes (len runtime)) 1 runtime)
      = Ok (deploy_bytecode length_immediate start_immediate runtime) /\
    to_bytes (len runtime) (needed_bytes (len runtime)) = Ok length_immediate /\
    to_bytes (8 + needed_bytes (len runtime)) 1 = Ok start_immediate.
Proof.
  intros Hlen.
  pose proof (len_nonneg runtime) as HK.
  pose proof (needed_bytes_pos (len runtime)) as Hnb1.
  pose proof (needed_bytes_le_6 (len runtime) ltac:(lia)) as Hnb6.
  pose proof (to_bytes_fits (len runtime) (needed_bytes (len runtime))
                (conj HK (needed_bytes_fits _ HK))) as Hlength.
  assert (0 <= 8 + needed_bytes (len runtime) < 2 ^ (8 * 1)) as Hfit.
  { change (2 ^ (8 * 1)) with 256. lia. }
  pose proof (to_bytes_fits _ _ Hfit) as Hstart.
  eexists _, _. split; [|split; [exact Hlength|exact Hstart]].
  unfold solid_asm_to_bytecode.
  destruct (deploy_offsets (needed_bytes (len runtime)) 1 runtime) as [Hs He].
  set (m := get_solid_offsets _) in *. clearbody m.
  unfold deploy_solid.
  cbn [emit_steps emit_step ref_value]. unfold getitem. rewrite Hs, He.
  cbn [mbind result_bind].
  replace (7 + needed_bytes (len runtime) + 1 + len runtime
           - (7 + needed_bytes (len runtime) + 1)) with (len runtime) by lia.
  replace (7 + needed_bytes (len runtime) + 1) with (8 + needed_bytes (len runtime)) by lia.
  rewrite Hlength, Hstart. cbn [mbind result_bind].
  unfold deploy_bytecode. rewrite app_nil_r, <- !app_assoc. done.
Qed.

(** C7, amended: for a runtime payload of [K] bytes with [K + 19 < 2^48],
    [minimal_deploy] returns (two passes of the shrinker are enough) the
    bytecode that starts with the push made for the distance reference,
    whose immediate decodes, big-endian, to [K], and that ends with the
    payload; the second push carries the offset of the payload in the
    bytecode. *)
Theorem minimal_deploy_spec (runtime : list byte) (fuel : nat) :
  len runtime + 19 < 2 ^ 48 ->
  (2 <= fuel)%nat ->
  exists length_immediate start_immediate bytecode,
    minimal_deploy fuel runtime = Some (Ok bytecode) /\
    bytecode = deploy_bytecode length_immediate start_immediate runtime /\
    from_bytes length_immediate = len runtime /\
    from_bytes start_immediate = len bytecode - len runtime /\
    runtime `suffix_of` bytecode.
Proof.
  intros Hlen Hfuel.
  destruct (deploy_solidify runtime Hlen) as (w & Hw & Hsolid).
  destruct (deploy_emit runtime Hlen) as (length_immediate & start_immediate & Hemit & Hl & Hs).
  exists length_immediate, start_immediate,
    (deploy_bytecode length_immediate start_immediate runtime).
  split.
  { unfold minimal_deploy, asm_to_bytecode.
    rewrite deploy_validate, Hsolid.
    change (default _ None) with (-1).
    by rewrite (deploy_shorten fuel w runtime Hfuel Hw Hlen), Hemit. }
  split; [done|]. split; [by eapply from_bytes_to_bytes|]. split.
  - rewrite (from_bytes_to_bytes _ _ _ Hs).
    apply to_bytes_Ok in Hl as (_ & _ & _ & Hl). apply to_bytes_Ok in Hs as (_ & _ & _ & Hs).
    unfold deploy_bytecode, get_bytes. rewrite !len_app.
    rewrite !create_push_extra_data, !create_plain_op_extra_data.
    unfold len in *. rewrite !length_cons, !length_nil. lia.
  - unfold deploy_bytecode. rewrite !app_assoc. by eexists.
Qed.

(** Beyond that length the solidifier needs more than 6 bytes, and its
    assertion fails. *)
Lemma minimal_deploy_too_long (runtime : list byte) (fuel : nat) :
  2 ^ 48 <= len runtime + 19 ->
  minimal_deploy fuel runtime = Some (Raise (AssertionError No_message)).
Proof.
  intros Hlen. unfold minimal_deploy, asm_to_bytecode.
  by rewrite deploy_validate, (deploy_too_long runtime Hlen).
Qed.
End Deploy.

Lemma evm_table_laws : OpcodeTableLaws evm_table.
Proof. by split. Qed.

(** C7 as stated fails: [minimal_deploy] does not succeed on a payload of
    [2^48 - 19] bytes. *)
Lemma minimal_deploy_fails_on_long_payload :
  @minimal_deploy evm_table 2 (repeat Byte.x00 (Z.to_nat (2 ^ 48 - 19)))
  = Some (Raise (AssertionError No_message)).
Proof.
  apply (@minimal_deploy_too_long evm_table evm_table_laws).
  unfold len. rewrite repeat_length, Z2Nat.id by lia. lia.
Qed.

Lemma minimal_deploy_spec_witness :
  exists length_immediate start_immediate bytecode,
    @minimal_deploy evm_table 2 [Byte.x60; Byte.x2a; Byte.x00] = Some (Ok bytecode) /\
    bytecode = @deploy_bytecode evm_table length_immediate start_immediate
                 [Byte.x60; Byte.x2a; Byte.x00] /\
    from_bytes length_immediate = len [Byte.x60; Byte.x2a; Byte.x00] /\
    from_bytes start_immediate = len bytecode - len [Byte.x60; Byte.x2a; Byte.x00] /\
    [Byte.x60; Byte.x2a; Byte.x00] `suffix_of` bytecode.
Proof.
  apply (@minimal_deploy_spec evm_table evm_table_laws [Byte.x60; Byte.x2a; Byte.x00] 2).
  - by vm_compute.
  - lia.
Defined.

(** ** The test cases of the spec, run on the EVM table *)

(** A label, an instruction, an absolute reference to the label: the
    reference resolves to offset 0. *)
Example offset_of_leading_label :
  ref_value
    (get_solid_offsets
       [S_Mark ([], 0); S_Op (mkOp Byte.x5b []); SizedRef (MarkRef ([], 0)) 1])
    (MarkRef ([], 0)) = Ok 0.
Proof. reflexivity. Qed.

(** An absolute reference at the very start to a label behind 300 one-byte
    instructions is resolved to two bytes, and points at offset 303. *)
Example reference_over_300_instructions :
  first_bytes 3
    (@asm_to_bytecode evm_table 5
       (A_Ref (MarkRef ([], 0)) ::
        repeat (A_Op (mkOp Byte.x5b [])) 300 ++ [A_Mark ([], 0)]) None)
  = Some (Ok [Byte.x61; Byte.x01; Byte.x2f]).
Proof. by vm_compute. Qed.

(** A budget of 0 returns the solidified stream as it is. *)
Example shorten_asm_budget_0 (solid : list SolidAsm) (fuel : nat) :
  shorten_asm fuel solid (Some 0) = Some (Ok solid).
Proof. by destruct fuel. Qed.

(** The deploy wrapper of a three-byte payload:
    [PUSH1 3, DUP1, PUSH1 9, PUSH0, CODECOPY, PUSH0, RETURN], then the
    payload. *)
Example minimal_deploy_three_bytes :
  @minimal_deploy evm_table 2 [Byte.x60; Byte.x2a; Byte.x00]
  = Some (Ok [Byte.x60; Byte.x03; Byte.x80; Byte.x60; Byte.x09; Byte.x5f;
              Byte.x39; Byte.x5f; Byte.xf3; Byte.x60; Byte.x2a; Byte.x00]).
Proof. reflexivity. Qed.

(** A payload of 256 bytes needs a two-byte length, which moves the payload
    to offset 10. *)
Example minimal_deploy_256_bytes :
  first_bytes 10 (@minimal_deploy evm_table 2 (repeat Byte.xfe 256))
  = Some (Ok [Byte.x61; Byte.x01; Byte.x00; Byte.x80; Byte.x60; Byte.x0a;
              Byte.x5f; Byte.x39; Byte.x5f; Byte.xf3]).
Proof. by vm_compute. Qed.

(** The three rejections of the validator. *)
Example validate_duplicate :
  validate_asm [A_Mark ([1], 0); A_bytes [Byte.x00]; A_Mark ([1], 0)]
  = Raise (AssertionError (Duplicate_key ([1], 0))).
Proof. reflexivity. Qed.

Example validate_reversed :
  validate_asm [A_Mark ([], 0); A_Mark ([], 1); A_Ref (MarkDeltaRef ([], 1) ([], 0))]
  = Raise (AssertionError (Negative_delta 2)).
Proof. reflexivity. Qed.

Example validate_absent :
  validate_asm [A_Mark ([], 0); A_Ref (MarkRef ([], 5))]
  = Raise (AssertionError (Invalid_reference 1 ([], 5))).
Proof. reflexivity. Qed.

(** * Further properties of the code *)

(** ** utils.py: the unique dictionary *)

Lemma build_unique_dict_from_Raise_iff {V} (d : gmap MarkId V) kvs on_dup e :
  build_unique_dict_from d kvs on_dup = Raise e <->
  exists pre k v post,
    kvs = pre ++ (k, v) :: post /\
    NoDup pre.*1 /\ (forall k', k' ∈ pre.*1 -> d !! k' = None) /\
    (is_Some (d !! k) \/ k ∈ pre.*1) /\
    e = AssertionError (on_dup k).
Proof.
  split.
  - revert d. induction kvs as [|[k0 v0] kvs IH]; intros d; simpl; [done|].
    unfold set_unique. destruct (contains d k0) eqn:Hc; simpl.
    + intros [= <-]. apply contains_true in Hc.
      exists [], k0, v0, kvs. split; [done|]. split; [constructor|].
      split; [intros k' Hk'; by apply elem_of_nil in Hk'|]. split; [by left|done].
    + apply contains_false in Hc. intros Hrec.
      apply IH in Hrec as (pre & k & v & post & -> & Hnd & Hfresh & Hwhy & ->).
      assert (k0 ∉ pre.*1) as Hk0.
      { intros Hin. apply Hfresh in Hin. by rewrite lookup_insert_eq in Hin. }
      exists ((k0, v0) :: pre), k, v, post. split; [done|].
      split; [by apply NoDup_cons|]. split; [|split; [|done]].
      * intros k' [->|Hin]%elem_of_cons; [done|].
        specialize (Hfresh k' Hin).
        destruct (decide (k0 = k')) as [->|Hne]; [done|].
        by rewrite lookup_insert_ne in Hfresh.
      * destruct (decide (k0 = k)) as [->|Hne].
        -- right. apply elem_of_cons. by left.
        -- destruct Hwhy as [Hsome|Hin].
           ++ left. by rewrite lookup_insert_ne in Hsome.
           ++ right. apply elem_of_cons. by right.
  - intros (pre & k & v & post & -> & Hnd & Hfresh & Hwhy & ->).
    revert d Hfresh Hwhy. induction pre as [|[k0 v0] pre IH]; intros d Hfresh Hwhy; simpl.
    + destruct Hwhy as [Hsome|Hin]; [|by apply elem_of_nil in Hin].
      unfold set_unique. apply contains_true in Hsome. by rewrite Hsome.
    + simpl in Hnd. apply NoDup_cons in Hnd as [Hk0 Hnd].
      unfold set_unique.
      assert (contains d k0 = false) as ->.
      { apply contains_false. apply Hfresh. apply elem_of_cons. by left. }
      simpl. apply IH; [done| |].
      * intros k' Hin. rewrite lookup_insert_ne by (intros ->; done).
        apply Hfresh. apply elem_of_cons. by right.
      * destruct (decide (k0 = k)) as [->|Hne].
        -- left. by rewrite lookup_insert_eq.
        -- rewrite lookup_insert_ne by done.
           destruct Hwhy as [?|[?|?]%elem_of_cons]; [by left|done|by right].
Qed.

Lemma build_unique_dict_from_total {V} (d : gmap MarkId V) kvs on_dup :
  NoDup kvs.*1 -> (forall k, k ∈ kvs.*1 -> d !! k = None) ->
  exists d', build_unique_dict_from d kvs on_dup = Ok d'.
Proof.
  intros Hnd Hfresh.
  destruct (build_unique_dict_from d kvs on_dup) as [d'|e] eqn:Hbuild; [by exists d'|].
  apply build_unique_dict_from_Raise in Hbuild as (pre & k & v & post & -> & _ & Hwhy).
  rewrite fmap_app, fmap_cons in Hnd, Hfresh. simpl in *.
  destruct Hwhy as [[x Hx]|Hin].
  - rewrite Hfresh in Hx; [done|]. apply elem_of_app. right. apply elem_of_cons. by left.
  - apply NoDup_app in Hnd as (_ & Hdisj & _). destruct (Hdisj k Hin).
    apply elem_of_cons. by left.
Qed.

(** X1: [build_unique_dict] returns exactly when the keys are pairwise
    distinct, and then the dictionary is the one of the pairs: a key maps to
    the value it was paired with, and nothing else is in it. *)
Theorem build_unique_dict_Ok {V} (kvs : list (MarkId * V)) (on_dup : MarkId -> message)
    (d : gmap MarkId V) :
  build_unique_dict kvs on_dup = Ok d <->
  NoDup kvs.*1 /\ d = list_to_map kvs.
Proof.
  unfold build_unique_dict. split.
  - intros (Hnd & _ & Hlook)%build_unique_dict_from_Ok. split; [done|].
    apply map_eq. intros k. apply option_eq. intros v.
    rewrite Hlook, lookup_empty, <- elem_of_list_to_map by done.
    split; [intros [?|?]; done | by left].
  - intros [Hnd ->].
    destruct (build_unique_dict_from_total (∅ : gmap MarkId V) kvs on_dup Hnd) as [d' Hd'].
    { intros k _. apply lookup_empty. }
    rewrite Hd'. f_equal.
    apply build_unique_dict_from_Ok in Hd' as (_ & _ & Hlook).
    apply map_eq. intros k. apply option_eq. intros v.
    rewrite Hlook, lookup_empty, <- elem_of_list_to_map by done.
    split; [intros [?|?]; done | by left].
Qed.

(** X2: [build_unique_dict] fails exactly when a key repeats, and the message
    is built from the first key, in the order of the pairs, that repeats an
    earlier one. *)
Theorem build_unique_dict_Raise {V} (kvs : list (MarkId * V)) (on_dup : MarkId -> message)
    (e : exn) :
  build_unique_dict kvs on_dup = Raise e <->
  exists pre k v post,
    kvs = pre ++ (k, v) :: post /\ NoDup pre.*1 /\ k ∈ pre.*1 /\
    e = AssertionError (on_dup k).
Proof.
  unfold build_unique_dict. rewrite build_unique_dict_from_Raise_iff. split.
  - intros (pre & k & v & post & -> & Hnd & _ & Hwhy & ->).
    exists pre, k, v, post. split; [done|]. split; [done|]. split; [|done].
    destruct Hwhy as [[x Hx]|?]; [by rewrite lookup_empty in Hx|done].
  - intros (pre & k & v & post & -> & Hnd & Hin & ->).
    exists pre, k, v, post. split; [done|]. split; [done|].
    split; [intros; apply lookup_empty|]. split; [by right|done].
Qed.

(** ** assembler.py: the validator stops at the first offender *)

Lemma validate_steps_Raise_first indices n asm e :
  validate_steps indices (enumerate_from n asm) = Raise e ->
  exists j step,
    asm !! j = Some step /\ validate_step indices (n + j) step = Raise e /\
    forall j' step', (j' < j)%nat -> asm !! j' = Some step' ->
      validate_step indices (n + j') step' = Ok tt.
Proof.
  revert n. induction asm as [|step0 asm IH]; intros n; simpl; [done|].
  destruct (validate_step indices n step0) as [[]|e0] eqn:Hstep; simpl.
  - intros (j & step & Hj & Hraise & Hbefore)%IH. exists (S j), step.
    split; [done|]. split; [by replace (n + S j)%nat with (S n + j)%nat by lia|].
    intros [|j'] step' Hlt Hj'; simpl in Hj'.
    + injection Hj' as <-. by rewrite Nat.add_0_r.
    + replace (n + S j')%nat with (S n + j')%nat by lia. apply Hbefore; [lia|done].
  - intros [= <-]. exists 0%nat, step0. split; [done|].
    split; [by rewrite Nat.add_0_r|]. intros j' step' Hlt. lia.
Qed.

(** X3: when [validate_asm] fails with a message that names a step, the
    labels are distinct, the step named is a reference that does not
    resolve, and every reference before it resolves: the error is that of the
    first offending step. *)
Theorem validate_asm_first_offender (asm : list Asm) (e : exn) (i : nat) :
  validate_asm asm = Raise e ->
  named_position e = Some i ->
  labels_distinct asm /\
  (exists r, asm !! i = Some (A_Ref r) /\ ~ reference_resolves asm r) /\
  (forall j r, (j < i)%nat -> asm !! j = Some (A_Ref r) -> reference_resolves asm r).
Proof.
  unfold validate_asm. intros Hraise Hpos.
  destruct (build_unique_dict _ _) as [indices|e'] eqn:Hbuild; simpl in Hraise.
  2:{ injection Hraise as ->.
      apply validate_asm_duplicate in Hbuild as (mid & ? & ? & _ & _ & _ & ->). done. }
  apply validate_asm_indices in Hbuild as [Hnd Hidx].
  unfold enumerate in Hraise.
  apply validate_steps_Raise_first in Hraise as (j & step & Hj & Hstep & Hbefore).
  eapply validate_step_Raise in Hstep as (r & -> & Hwhy); [|done].
  pose proof (rejected_names_position _ _ _ _ Hwhy) as Hj'. simpl in Hj'.
  assert (j = i) as -> by congruence.
  split; [done|]. split.
  - exists r. split; [done|]. by eapply rejected_not_resolving.
  - intros j' r' Hlt Hr'. specialize (Hbefore j' _ Hlt Hr'). simpl in Hbefore.
    by eapply validate_step_Ok.
Qed.

Lemma validate_asm_first_offender_witness :
  labels_distinct
    [A_Mark ([], 0); A_Ref (MarkRef ([], 0)); A_Ref (MarkRef ([], 1));
     A_Ref (MarkRef ([], 2))] /\
  (exists r,
     [A_Mark ([], 0); A_Ref (MarkRef ([], 0)); A_Ref (MarkRef ([], 1));
      A_Ref (MarkRef ([], 2))] !! 2%nat = Some (A_Ref r) /\
     ~ reference_resolves
         [A_Mark ([], 0); A_Ref (MarkRef ([], 0)); A_Ref (MarkRef ([], 1));
          A_Ref (MarkRef ([], 2))] r) /\
  (forall j r, (j < 2)%nat ->
     [A_Mark ([], 0); A_Ref (MarkRef ([], 0)); A_Ref (MarkRef ([], 1));
      A_Ref (MarkRef ([], 2))] !! j = Some (A_Ref r) ->
     reference_resolves
       [A_Mark ([], 0); A_Ref (MarkRef ([], 0)); A_Ref (MarkRef ([], 1));
        A_Ref (MarkRef ([], 2))] r).
Proof.
  exact (validate_asm_first_offender
    [A_Mark ([], 0); A_Ref (MarkRef ([], 0)); A_Ref (MarkRef ([], 1));
     A_Ref (MarkRef ([], 2))]
    (AssertionError (Invalid_reference 2 ([], 1))) 2 eq_refl eq_refl).
Defined.

(** ** assembler.py: the offset of a label *)

Lemma offsets_from_lookup_last m off solid mid i :
  solid !! i = Some (S_Mark mid) ->
  (forall j, (i < j)%nat -> solid !! j <> Some (S_Mark mid)) ->
  get_solid_offsets_from m off solid !! mid = Some (off + offset_of_position solid i).
Proof.
  revert m off i. induction solid as [|step solid IH]; intros m off i Hi Hlast; [done|].
  destruct i as [|i]; simpl in *.
  - injection Hi as ->. rewrite offsets_from_absent.
    + rewrite lookup_insert_eq, offset_of_position_0. f_equal. lia.
    + intros [j Hj]%list_elem_of_lookup. by apply (Hlast (S j)); [lia|].
  - rewrite offset_of_position_S, Z.add_assoc.
    apply IH; [done|]. intros j Hlt. apply (Hlast (S j)). lia.
Qed.

(** X4: [get_solid_offsets] knows exactly the identities of the labels of the
    stream, and gives each the sizes of the steps before its label; when an
    identity has several labels, the last one counts. *)
Theorem get_solid_offsets_spec (solid : list SolidAsm) (mid : MarkId) (offset : Z) :
  get_solid_offsets solid !! mid = Some offset <->
  exists i,
    solid !! i = Some (S_Mark mid) /\
    (forall j, (i < j)%nat -> solid !! j <> Some (S_Mark mid)) /\
    offset = offset_of_position solid i.
Proof.
  split.
  - intros Hlook.
    assert (S_Mark mid ∈ solid) as Hin by (apply offsets_dom; by eexists).
    apply list_elem_of_split_r in Hin as (l1 & l2 & -> & Hnotin).
    exists (length l1).
    assert ((l1 ++ S_Mark mid :: l2) !! length l1 = Some (S_Mark mid)) as Hi.
    { by rewrite list_lookup_middle. }
    assert (forall j, (length l1 < j)%nat ->
              (l1 ++ S_Mark mid :: l2) !! j <> Some (S_Mark mid)) as Hlast.
    { intros j Hlt Hj. rewrite lookup_app_r in Hj by lia.
      destruct (j - length l1)%nat as [|k] eqn:Hk; [lia|]. simpl in Hj.
      apply Hnotin. by eapply list_elem_of_lookup_2. }
    split; [done|]. split; [done|].
    unfold get_solid_offsets in Hlook.
    rewrite (offsets_from_lookup_last _ _ _ _ _ Hi Hlast) in Hlook.
    injection Hlook as <-. lia.
  - intros (i & Hi & Hlast & ->). unfold get_solid_offsets.
    by rewrite (offsets_from_lookup_last _ _ _ _ _ Hi Hlast).
Qed.

(** ** assembler.py: the least width *)

Lemma needed_bytes_le x w :
  0 <= x < 2 ^ (8 * w) -> 1 <= w -> needed_bytes x <= w.
Proof.
  intros [H0 Hlt] Hw. destruct (decide (x = 0)) as [->|Hne]; [by vm_compute|].
  destruct (needed_bytes_bounds x) as [Hlo _]; [lia|].
  pose proof (needed_bytes_pos x).
  assert (2 ^ (8 * (needed_bytes x - 1)) < 2 ^ (8 * w)) as Hpow by lia.
  apply Z.pow_lt_mono_r_iff in Hpow; lia.
Qed.

Lemma needed_bytes_mono x y : 0 <= x <= y -> needed_bytes x <= needed_bytes y.
Proof.
  intros [H0 Hle]. apply needed_bytes_le; [|apply needed_bytes_pos].
  pose proof (needed_bytes_fits y ltac:(lia)). lia.
Qed.

Lemma needed_bytes_le_fits x w : 0 <= x -> needed_bytes x <= w -> x < 2 ^ (8 * w).
Proof.
  intros Hx Hle. eapply Z.lt_le_trans; [by apply needed_bytes_fits|].
  apply Z.pow_le_mono_r; lia.
Qed.

(** X5: for a value that is not negative, [needed_bytes] is the least width,
    from 1 on, whose unsigned range holds the value; so the value fits a
    width [w >= 1] exactly when [needed_bytes] is at most [w]. *)
Theorem needed_bytes_least (x w : Z) :
  0 <= x -> 1 <= w ->
  (needed_bytes x <= w <-> x < 2 ^ (8 * w)).
Proof.
  intros Hx Hw. split.
  - by apply needed_bytes_le_fits.
  - intros Hlt. by apply needed_bytes_le.
Qed.

Lemma needed_bytes_least_witness :
  needed_bytes 65535 <= 2 <-> 65535 < 2 ^ (8 * 2).
Proof. apply (needed_bytes_least 65535 2); lia. Defined.

(** ** assembler.py: one pass of the shrinker *)

Lemma shorten_step_shrunk m step changed step' :
  shorten_step m step = Ok (changed, step') <->
  shrunk_step m step step' /\ changed = bool_decide (step' <> step).
Proof.
  split.
  - destruct step as [o|mid|r w|b]; simpl;
      try (intros [= <- <-]; split; [constructor|by rewrite bool_decide_eq_false_2 by auto]).
    destruct (ref_value m r) as [v|e] eqn:Hv; simpl; [|done].
    case_bool_decide as Hne; intros [= <- <-].
    + split; [by constructor|]. symmetry. apply bool_decide_eq_true. congruence.
    + split; [|symmetry; apply bool_decide_eq_false; auto].
      pose proof (shrunk_ref m r w v Hv) as Hshrunk. by rewrite Hne in Hshrunk.
  - intros [Hshrunk ->]. destruct Hshrunk as [o|mid|b|r w v Hv]; simpl;
      try by rewrite bool_decide_eq_false_2 by auto.
    rewrite Hv. simpl. case_bool_decide as Hne.
    + rewrite bool_decide_eq_true_2 by congruence. done.
    + rewrite Hne. by rewrite bool_decide_eq_false_2 by auto.
Qed.

Lemma bool_decide_cons_ne (x y : SolidAsm) (l k : list SolidAsm) :
  bool_decide (y :: k <> x :: l) = bool_decide (k <> l) || bool_decide (y <> x).
Proof.
  destruct (decide (k = l)) as [->|Hkl], (decide (y = x)) as [->|Hyx].
  - by rewrite !bool_decide_eq_false_2 by auto.
  - rewrite (bool_decide_eq_true_2 (y <> x)) by done.
    rewrite orb_true_r. apply bool_decide_eq_true. congruence.
  - rewrite (bool_decide_eq_true_2 (k <> l)) by done.
    apply bool_decide_eq_true. congruence.
  - rewrite (bool_decide_eq_true_2 (k <> l)) by done.
    apply bool_decide_eq_true. congruence.
Qed.

Lemma shorten_steps_shrunk m changed_any acc solid steps :
  Forall2 (shrunk_step m) solid steps ->
  shorten_steps m changed_any acc solid
  = Ok (bool_decide (steps <> solid) || changed_any, acc ++ steps).
Proof.
  intros Hall. revert changed_any acc.
  induction Hall as [|x y solid steps Hxy Hall IH]; intros changed_any acc;
    cbn [shorten_steps].
  - rewrite bool_decide_eq_false_2 by auto. by rewrite app_nil_r.
  - rewrite (proj2 (shorten_step_shrunk m x _ y) (conj Hxy eq_refl)).
    cbn [mbind result_bind].
    rewrite IH, bool_decide_cons_ne, <- app_assoc, orb_assoc. done.
Qed.

Lemma shorten_steps_Forall2 m changed_any acc solid changed_any' out :
  shorten_steps m changed_any acc solid = Ok (changed_any', out) ->
  exists steps, out = acc ++ steps /\ Forall2 (shrunk_step m) solid steps.
Proof.
  intros (steps & -> & Hall & _)%shorten_steps_Ok. exists steps. split; [done|].
  eapply Forall2_impl; [exact Hall|]. intros x y [changed Hstep].
  by apply shorten_step_shrunk in Hstep as [? _].
Qed.

(** What a pass returns, step by step. *)
Lemma shorten_asm_once_shrunk (solid solid' : list SolidAsm) (changed_any : bool) :
  shorten_asm_once solid = Ok (changed_any, solid') <->
  Forall2 (shrunk_step (get_solid_offsets solid)) solid solid' /\
  changed_any = bool_decide (solid' <> solid).
Proof.
  unfold shorten_asm_once. split.
  - intros Hpass. pose proof Hpass as (steps & Heq & Hall)%shorten_steps_Forall2.
    simpl in Heq. subst solid'. split; [done|].
    rewrite (shorten_steps_shrunk _ false [] _ _ Hall) in Hpass.
    injection Hpass as <-. by rewrite orb_false_r.
  - intros [Hall ->]. rewrite (shorten_steps_shrunk _ false [] _ _ Hall).
    by rewrite orb_false_r.
Qed.

(** X6: a pass of [shorten_asm_once] that returns gives every reference the
    width its value needs under the offsets of the stream it was given, keeps
    every other step, and reports a change exactly when the stream it returns
    differs from the one it was given; and every stream so related to the
    input is what the pass returns. *)
Theorem shorten_asm_once_Ok (solid solid' : list SolidAsm) (changed_any : bool) :
  shorten_asm_once solid = Ok (changed_any, solid') <->
  Forall2 (shrunk_step (get_solid_offsets solid)) solid solid' /\
  changed_any = bool_decide (solid' <> solid).
Proof. apply shorten_asm_once_shrunk. Qed.

Lemma shorten_steps_Raise m changed_any acc solid e :
  shorten_steps m changed_any acc solid = Raise e ->
  exists step, step ∈ solid /\ shorten_step m step = Raise e.
Proof.
  revert changed_any acc. induction solid as [|step solid IH]; intros changed_any acc; simpl; [done|].
  destruct (shorten_step m step) as [[changed step']|e'] eqn:Hstep; simpl.
  - intros (x & Hx & Hraise)%IH. exists x. split; [|done]. apply elem_of_cons. by right.
  - intros [= <-]. exists step. split; [|done]. apply elem_of_cons. by left.
Qed.

Lemma ref_value_Raise m r e :
  ref_value m r = Raise e ->
  exists mid, mid ∈ ref_ids r /\ m !! mid = None /\ e = KeyError mid.
Proof.
  destruct r as [mid|start end_]; simpl; unfold getitem.
  - destruct (m !! mid) eqn:Hm; [done|]. intros [= <-]. exists mid.
    split; [by apply list_elem_of_singleton|done].
  - destruct (m !! end_) eqn:He; simpl.
    + destruct (m !! start) eqn:Hs; simpl; [done|]. intros [= <-]. exists start.
      split; [apply elem_of_cons; by left|done].
    + intros [= <-]. exists end_.
      split; [apply elem_of_cons; right; by apply list_elem_of_singleton|done].
Qed.

(** X7: [shorten_asm_once] fails exactly when a reference of the stream names
    an identity that no label of the stream has, and then with the [KeyError]
    of such an identity; it raises nothing else. *)
Theorem shorten_asm_once_Raise (solid : list SolidAsm) :
  (forall e, shorten_asm_once solid = Raise e ->
     exists mid, e = KeyError mid /\ dangling solid mid) /\
  (forall mid, dangling solid mid ->
     exists mid', shorten_asm_once solid = Raise (KeyError mid') /\ dangling solid mid').
Proof.
  assert (forall e, shorten_asm_once solid = Raise e ->
            exists mid, e = KeyError mid /\ dangling solid mid) as Hraise.
  { unfold shorten_asm_once. intros e (step & Hin & Hstep)%shorten_steps_Raise.
    destruct step as [o|mid|r w|b]; simpl in Hstep; try done.
    destruct (ref_value _ r) as [v|e'] eqn:Hv; simpl in Hstep; [by case_bool_decide|].
    injection Hstep as ->. apply ref_value_Raise in Hv as (mid & Hmid & Hnone & ->).
    exists mid. split; [done|]. split; [by exists r, w|].
    intros Hlabel%offsets_dom. rewrite Hnone in Hlabel. by destruct Hlabel. }
  split; [done|].
  intros mid [(r & w & Hin & Hmid) Hnolabel].
  destruct (shorten_asm_once solid) as [[changed_any solid']|e] eqn:Hpass.
  - apply shorten_asm_once_shrunk in Hpass as [Hall _].
    apply list_elem_of_lookup in Hin as [i Hi].
    destruct (Forall2_lookup_l _ _ _ _ _ Hall Hi) as (y & _ & Hshrunk).
    inversion Hshrunk as [| | |? ? v Hv]; subst.
    destruct Hnolabel. apply offsets_dom. by eapply ref_value_keys.
  - destruct (Hraise e eq_refl) as (mid' & -> & Hd). by exists mid'.
Qed.

(** ** assembler.py: the shrinker only narrows *)

Lemma narrower_size x' x : narrower_step x' x -> get_size x' <= get_size x.
Proof. intros []; simpl; lia. Qed.

Lemma narrower_size_strict x' x :
  narrower_step x' x -> x' <> x -> get_size x' < get_size x.
Proof.
  intros [o|mid|b|r w' w Hle] Hne; try done. simpl.
  destruct (decide (w' = w)) as [->|]; [done|lia].
Qed.

Lemma narrower_offsets solid' solid i j :
  Forall2 narrower_step solid' solid -> (i <= j)%nat ->
  offset_of_position solid' j - offset_of_position solid' i
  <= offset_of_position solid j - offset_of_position solid i.
Proof.
  intros Hall. revert i j.
  induction Hall as [|x' x solid' solid Hx Hall IH]; intros i j Hij.
  - unfold offset_of_position. rewrite !take_nil. done.
  - pose proof (narrower_size _ _ Hx).
    destruct i as [|i], j as [|j]; try lia.
    + rewrite !offset_of_position_0, !offset_of_position_S.
      specialize (IH 0%nat j ltac:(lia)). rewrite !offset_of_position_0 in IH. lia.
    + rewrite !offset_of_position_S. specialize (IH i j ltac:(lia)). lia.
Qed.

Lemma narrower_total solid' solid :
  Forall2 narrower_step solid' solid ->
  total_size solid' <= total_size solid /\
  (solid' <> solid -> total_size solid' < total_size solid).
Proof.
  unfold total_size. induction 1 as [|x' x solid' solid Hx Hall [IHle IHlt]]; [done|].
  simpl. rewrite !sum_cons. pose proof (narrower_size _ _ Hx). split; [lia|].
  intros Hne. destruct (decide (x' = x)) as [->|Hx'].
  - destruct (decide (solid' = solid)) as [->|Hs]; [done|]. specialize (IHlt Hs). lia.
  - pose proof (narrower_size_strict _ _ Hx Hx'). lia.
Qed.


Lemma offset_of_position_le_total solid i :
  widths_nonneg solid -> offset_of_position solid i <= total_size solid.
Proof.
  intros Hw. unfold total_size.
  replace (map get_size solid) with (map get_size (take (i `max` length solid) solid)).
  - apply (offset_of_position_mono solid i (i `max` length solid) Hw). lia.
  - by rewrite take_ge by lia.
Qed.

Lemma offset_of_position_nonneg solid i :
  widths_nonneg solid -> 0 <= offset_of_position solid i.
Proof.
  intros Hw. pose proof (offset_of_position_mono solid 0 i Hw ltac:(lia)) as H.
  by rewrite offset_of_position_0 in H.
Qed.


Section Shrinking.
Variable asm : list Asm.
Hypothesis asm_well_formed : well_formed asm.

(** The value of a reference in a resolved stream of [asm] is not negative,
    is bounded by the size of the stream, and does not grow when the stream
    is narrowed. *)
Lemma ref_value_bounds solid r w :
  Forall2 sized_from asm solid -> widths_nonneg solid -> SizedRef r w ∈ solid ->
  exists v, ref_value (get_solid_offsets solid) r = Ok v /\ 0 <= v <= total_size solid.
Proof.
  destruct asm_well_formed as [Hnd Hres].
  intros Hsz Hw [i Hi]%list_elem_of_lookup.
  apply (sized_from_ref asm) in Hi; [|done].
  destruct (ref_value_resolved asm solid r Hnd Hsz (Hres i r Hi)) as (v & Hv & Hshape).
  exists v. split; [done|]. destruct r as [mid|start end_].
  - destruct Hshape as (k & _ & ->).
    split; [by apply offset_of_position_nonneg|by apply offset_of_position_le_total].
  - destruct Hshape as (i_s & i_e & _ & _ & Hlt & ->).
    pose proof (offset_of_position_mono solid i_s i_e Hw ltac:(lia)).
    pose proof (offset_of_position_nonneg solid i_s Hw).
    pose proof (offset_of_position_le_total solid i_e Hw). lia.
Qed.

Lemma ref_value_narrower solid' solid r v' v :
  Forall2 sized_from asm solid' -> Forall2 sized_from asm solid ->
  Forall2 narrower_step solid' solid ->
  (exists i, asm !! i = Some (A_Ref r)) ->
  ref_value (get_solid_offsets solid') r = Ok v' ->
  ref_value (get_solid_offsets solid) r = Ok v ->
  v' <= v.
Proof.
  destruct asm_well_formed as [Hnd Hres].
  intros Hsz' Hsz Hnar [i Hi] Hv' Hv.
  destruct (ref_value_resolved asm solid' r Hnd Hsz' (Hres i r Hi)) as (x' & Hx' & Hshape').
  destruct (ref_value_resolved asm solid r Hnd Hsz (Hres i r Hi)) as (x & Hx & Hshape).
  rewrite Hv' in Hx'. rewrite Hv in Hx. simplify_eq.
  destruct r as [mid|start end_].
  - destruct Hshape' as (k' & Hk' & ->). destruct Hshape as (k & Hk & ->).
    pose proof (label_at_unique _ _ _ _ Hnd Hk Hk') as ->.
    pose proof (narrower_offsets solid' solid 0 k' Hnar ltac:(lia)) as H.
    by rewrite !offset_of_position_0, !Z.sub_0_r in H.
  - destruct Hshape' as (s' & e' & Hs' & He' & Hlt' & ->).
    destruct Hshape as (s & e & Hs & He & Hlt & ->).
    pose proof (label_at_unique _ _ _ _ Hnd Hs Hs') as ->.
    pose proof (label_at_unique _ _ _ _ Hnd He He') as ->.
    apply narrower_offsets; [done|lia].
Qed.

(** A pass over a stream whose widths are sufficient narrows it, and leaves
    the widths sufficient. *)
Lemma shorten_asm_once_narrows solid changed_any solid' :
  Forall2 sized_from asm solid -> widths_sufficient solid ->
  shorten_asm_once solid = Ok (changed_any, solid') ->
  Forall2 narrower_step solid' solid /\ widths_sufficient solid'.
Proof.
  intros Hsz Hsuf Hpass.
  pose proof (shorten_asm_once_sized _ _ _ _ Hsz Hpass) as Hsz'.
  apply shorten_asm_once_shrunk in Hpass as [Hall _].
  assert (Forall2 narrower_step solid' solid) as Hnar.
  { apply Forall2_same_length_lookup_2; [symmetry; by eapply Forall2_length|].
    intros i y x Hy Hx.
    destruct (Forall2_lookup_l _ _ _ _ _ Hall Hx) as (y' & Hy' & Hshrunk).
    rewrite Hy in Hy'. injection Hy' as <-.
    destruct Hshrunk as [o|mid|b|r w v Hv]; try constructor.
    destruct (Hsuf r w) as (_ & v0 & Hv0 & _ & Hle); [by eapply list_elem_of_lookup_2|].
    rewrite Hv in Hv0. by injection Hv0 as <-. }
  split; [done|].
  intros r w' [i Hi]%list_elem_of_lookup.
  destruct (Forall2_lookup_r _ _ _ _ _ Hall Hi) as (x & Hx & Hshrunk).
  inversion Hshrunk as [| | |? w v Hv]; subst.
  split; [apply needed_bytes_pos|].
  assert (widths_nonneg solid') as Hw'.
  { intros r0 w0 [j Hj]%list_elem_of_lookup.
    destruct (Forall2_lookup_r _ _ _ _ _ Hall Hj) as (x0 & _ & Hshrunk0).
    inversion Hshrunk0; subst. pose proof (needed_bytes_pos v0). lia. }
  destruct (ref_value_bounds solid' r (needed_bytes v) Hsz' Hw')
    as (v' & Hv' & Hv'0 & _); [by eapply list_elem_of_lookup_2|].
  exists v'. split; [done|]. split; [done|].
  apply needed_bytes_mono. split; [done|].
  eapply (ref_value_narrower solid' solid r); try done.
  exists i. by eapply sized_from_ref.
Qed.
End Shrinking.

(** ** assembler.py: the solidified stream is wide enough *)

Lemma total_size_solidify w asm :
  total_size (map (solidify w) asm) = min_static_len asm + w * ref_count asm.
Proof.
  unfold total_size. induction asm as [|step asm IH].
  - change (0 = 0 + w * 0). lia.
  - simpl. rewrite sum_cons, IH, min_static_len_cons, ref_count_cons.
    destruct step; simpl; lia.
Qed.

Lemma solidify_widths w asm r w' :
  SizedRef r w' ∈ map (solidify w) asm -> w' = w.
Proof.
  induction asm as [|step asm IH]; simpl; [by intros ?%elem_of_nil|].
  intros [Heq|Hin]%elem_of_cons; [|by apply IH].
  destruct step; simpl in Heq; congruence.
Qed.

Lemma asm_to_solid_Ok asm solid :
  asm_to_solid asm = Ok solid ->
  get_min_static_size_bytes asm <= 6 /\
  solid = map (solidify (get_min_static_size_bytes asm)) asm.
Proof.
  unfold asm_to_solid.
  destruct (Z.leb_spec (get_min_static_size_bytes asm) 6); simpl; [|done].
  by intros [= <-].
Qed.

(** The solidified stream of a validated stream has sufficient widths. *)
Lemma solidified_sufficient (asm : list Asm) (solid : list SolidAsm) :
  validate_asm asm = Ok tt ->
  asm_to_solid asm = Ok solid ->
  total_size solid
    = min_static_len asm + get_min_static_size_bytes asm * ref_count asm /\
  total_size solid <= 2 ^ (8 * get_min_static_size_bytes asm) - 1 /\
  widths_sufficient solid.
Proof.
  intros Hwf%validate_asm_well_formed Hsolid.
  pose proof (asm_to_solid_sized _ _ Hsolid) as Hsz.
  apply asm_to_solid_Ok in Hsolid as [_ ->].
  destruct (dest_bytes_loop_exits asm) as (H1 & Hok & _).
  set (w := get_min_static_size_bytes asm) in *.
  rewrite total_size_solidify. split; [done|]. split; [done|].
  assert (widths_nonneg (map (solidify w) asm)) as Hw.
  { intros r w' ->%solidify_widths. lia. }
  intros r w' Hin. pose proof (solidify_widths _ _ _ _ Hin) as ->.
  split; [done|].
  destruct (ref_value_bounds asm Hwf _ r w Hsz Hw Hin) as (v & Hv & H0 & Hle).
  exists v. split; [done|]. split; [done|].
  rewrite total_size_solidify in Hle. apply needed_bytes_le; lia.
Qed.

(** X8: the width [asm_to_solid] gives the references of a well-formed stream
    is enough for the whole solidified stream: its size is
    [L + w * R <= 2^(8w) - 1], and the value of every reference lies between
    0 and that size, so it needs no more than [w] bytes. *)
Theorem asm_to_solid_sufficient (asm : list Asm) (solid : list SolidAsm) :
  validate_asm asm = Ok tt ->
  asm_to_solid asm = Ok solid ->
  total_size solid
    = min_static_len asm + get_min_static_size_bytes asm * ref_count asm /\
  total_size solid <= 2 ^ (8 * get_min_static_size_bytes asm) - 1 /\
  widths_sufficient solid.
Proof. apply solidified_sufficient. Qed.

Lemma asm_to_solid_sufficient_witness :
  widths_sufficient
    [S_Mark ([], 0); SizedRef (MarkRef ([], 0)) 2; S_bytes (repeat Byte.x00 300)].
Proof.
  exact (proj2 (proj2 (asm_to_solid_sufficient
    [A_Mark ([], 0); A_Ref (MarkRef ([], 0)); A_bytes (repeat Byte.x00 300)]
    [S_Mark ([], 0); SizedRef (MarkRef ([], 0)) 2; S_bytes (repeat Byte.x00 300)]
    eq_refl eq_refl))).
Defined.

(** ** assembler.py: the shrinker keeps the widths sufficient *)

Lemma shrink_reachable_sufficient asm solid :
  well_formed asm -> shrink_reachable asm solid -> widths_sufficient solid.
Proof.
  intros Hwf. induction 1 as [solid Hsolid | solid changed_any solid' Hreach IH Hpass].
  - apply (solidified_sufficient asm solid); [|done].
    destruct (validate_asm_outcome asm) as
      [[Hok _] | [(e & _ & _ & Hnd) | (e & i & r & _ & _ & Hi & _ & Hno)]]; [done| |].
    + by destruct Hwf as [? _].
    + destruct Hwf as [_ Hres]. destruct Hno. by eapply Hres.
  - eapply shorten_asm_once_narrows; [done|by apply shrink_reachable_sized|done|done].
Qed.

(** X9: in every stream the shrinker can hold for a validated stream, every
    reference is at least one byte wide and its value is not negative and
    needs no more than the width it has; and a pass never widens a
    reference. *)
Theorem shrinker_only_narrows (asm : list Asm) (solid solid' : list SolidAsm)
    (changed_any : bool) :
  validate_asm asm = Ok tt ->
  shrink_reachable asm solid ->
  shorten_asm_once solid = Ok (changed_any, solid') ->
  widths_sufficient solid /\
  Forall2 narrower_step solid' solid /\
  (changed_any = true -> total_size solid' < total_size solid).
Proof.
  intros Hwf%validate_asm_well_formed Hreach Hpass.
  pose proof (shrink_reachable_sufficient _ _ Hwf Hreach) as Hsuf.
  pose proof (shrink_reachable_sized _ _ Hreach) as Hsz.
  destruct (shorten_asm_once_narrows asm Hwf _ _ _ Hsz Hsuf Hpass) as [Hnar _].
  split; [done|]. split; [done|]. intros ->.
  apply narrower_total; [done|].
  apply shorten_asm_once_shrunk in Hpass as [_ Hc].
  symmetry in Hc. by apply bool_decide_eq_true in Hc.
Qed.

Lemma shrinker_only_narrows_witness :
  Forall2 narrower_step
    [S_Mark ([], 0); SizedRef (MarkRef ([], 0)) 1; S_bytes (repeat Byte.x00 300)]
    [S_Mark ([], 0); SizedRef (MarkRef ([], 0)) 2; S_bytes (repeat Byte.x00 300)].
Proof.
  exact (proj1 (proj2 (shrinker_only_narrows
    [A_Mark ([], 0); A_Ref (MarkRef ([], 0)); A_bytes (repeat Byte.x00 300)]
    [S_Mark ([], 0); SizedRef (MarkRef ([], 0)) 2; S_bytes (repeat Byte.x00 300)]
    [S_Mark ([], 0); SizedRef (MarkRef ([], 0)) 1; S_bytes (repeat Byte.x00 300)]
    true eq_refl
    (reachable_solid
       [A_Mark ([], 0); A_Ref (MarkRef ([], 0)); A_bytes (repeat Byte.x00 300)]
       [S_Mark ([], 0); SizedRef (MarkRef ([], 0)) 2; S_bytes (repeat Byte.x00 300)]
       eq_refl)
    eq_refl))).
Defined.

(** ** assembler.py: the pipeline on a validated stream *)

Lemma sufficient_emits `{OpcodeTable} solid :
  widths_sufficient solid -> exists bytecode, solid_asm_to_bytecode solid = Ok bytecode.
Proof.
  intros Hsuf. unfold solid_asm_to_bytecode. apply emit_steps_total.
  intros step Hin. destruct step as [o|mid|r w|b]; simpl; eauto.
  destruct (Hsuf r w Hin) as (Hw & v & -> & Hv0 & Hle). simpl.
  rewrite to_bytes_fits; [simpl; eauto|].
  split; [done|]. by apply needed_bytes_le_fits.
Qed.

Lemma shorten_asm_loop_reachable asm fuel changed_any max_iters solid r :
  well_formed asm -> shrink_reachable asm solid ->
  shorten_asm_loop fuel changed_any max_iters solid = Some r ->
  exists solid', r = Ok solid' /\ shrink_reachable asm solid'.
Proof.
  intros Hwf. revert changed_any max_iters solid.
  induction fuel as [|fuel IH]; intros changed_any max_iters solid Hreach; simpl.
  - destruct (changed_any && negb (max_iters =? 0)); [done|]. intros [= <-]. eauto.
  - destruct (changed_any && negb (max_iters =? 0)); [|intros [= <-]; eauto].
    destruct (shorten_asm_once_total asm solid Hwf (shrink_reachable_sized _ _ Hreach))
      as (c & solid1 & Hpass).
    rewrite Hpass. apply IH. by eapply reachable_pass.
Qed.




(** X11: [asm_to_bytecode] raises exactly the error of [validate_asm], or,
    for a stream that passes it, the bare assertion of the width ceiling
    when the solidified width is over 6.  The shrinker and the emitter raise
    nothing on the way: no [KeyError], no [OverflowError]. *)
Theorem asm_to_bytecode_Raise `{OpcodeTable} (asm : list Asm) (fuel : nat)
    (max_reduce_iters : option Z) (e : exn) :
  asm_to_bytecode fuel asm max_reduce_iters = Some (Raise e) <->
  validate_asm asm = Raise e \/
  (validate_asm asm = Ok tt /\ 6 < get_min_static_size_bytes asm /\
   e = AssertionError No_message).
Proof.
  unfold asm_to_bytecode.
  destruct (validate_asm asm) as [[]|e0] eqn:Hvalid.
  2:{ split; [intros [= <-]; by left | intros [[= <-]|[? _]]; done]. }
  pose proof (validate_asm_well_formed _ Hvalid) as Hwf.
  destruct (asm_to_solid asm) as [solid0|e0] eqn:Hsolid.
  - pose proof (asm_to_solid_Ok _ _ Hsolid) as [Hw6 _].
    split; [|intros [?|(_ & ? & _)]; [done|lia]].
    destruct (shorten_asm _ _ _) as [[solid|e1]|] eqn:Hloop; [| |done].
    + apply shorten_asm_loop_reachable with (asm := asm) in Hloop
        as (s & [= <-] & Hreach); [|done|by apply reachable_solid].
      pose proof (shrink_reachable_sufficient _ _ Hwf Hreach) as Hsuf.
      destruct (sufficient_emits solid Hsuf) as [bytecode ->]. done.
    + apply shorten_asm_loop_reachable with (asm := asm) in Hloop
        as (s & [=] & _); [done|by apply reachable_solid].
  - unfold asm_to_solid in Hsolid.
    destruct (Z.leb_spec (get_min_static_size_bytes asm) 6); simpl in Hsolid; [done|].
    injection Hsolid as <-. split.
    + intros [= <-]. right. done.
    + intros [?|(_ & _ & ->)]; done.
Qed.

(** ** assembler.py: where the emitter puts the bytes *)

Lemma emit_steps_chunks `{OpcodeTable} m acc solid bs :
  emit_steps m acc solid = Ok bs <->
  exists chunks,
    Forall2 (fun step chunk => emit_step m step = Ok chunk) solid chunks /\
    bs = acc ++ concat chunks.
Proof.
  revert acc bs. induction solid as [|step solid IH]; intros acc bs; simpl.
  - split.
    + intros [= <-]. exists []. split; [constructor|]. simpl. by rewrite app_nil_r.
    + intros (chunks & Hall & ->). inversion Hall; subst. simpl. by rewrite app_nil_r.
  - destruct (emit_step m step) as [chunk|e] eqn:Hstep; simpl.
    + rewrite IH. split.
      * intros (chunks & Hall & ->). exists (chunk :: chunks).
        split; [by constructor|]. simpl. by rewrite app_assoc.
      * intros (chunks & Hall & ->).
        inversion Hall as [|? c ? chunks' Hc Hall']; subst.
        rewrite Hstep in Hc. injection Hc as <-.
        exists chunks'. split; [done|]. simpl. by rewrite app_assoc.
    + split; [done|]. intros (chunks & Hall & _).
      inversion Hall as [|? c ? chunks' Hc Hall']; subst. congruence.
Qed.

Lemma emit_step_ref `{OpcodeTable} m r w chunk :
  emit_step m (SizedRef r w) = Ok chunk ->
  exists v data,
    ref_value m r = Ok v /\ chunk = get_bytes (create_push data) /\
    len data = w /\ from_bytes data = v.
Proof.
  simpl. destruct (ref_value m r) as [v|e]; simpl; [|done].
  destruct (to_bytes v w) as [data|e] eqn:Hdata; simpl; [|done].
  intros [= <-]. exists v, data. split; [done|]. split; [done|].
  split; [by apply to_bytes_Ok in Hdata as (_ & _ & _ & ?)|by eapply from_bytes_to_bytes].
Qed.

Section Layout.
Context {table : OpcodeTable}.
Hypothesis push_length : forall data, len (get_bytes (create_push data)) = 1 + len data.

Lemma chunks_length m solid chunks :
  Forall2 (fun step chunk => emit_step m step = Ok chunk) solid chunks ->
  len (concat chunks) = sum (map get_size solid).
Proof.
  induction 1 as [|step chunk solid chunks Hstep Hall IH]; [done|].
  simpl. rewrite len_app, sum_cons, IH.
  by rewrite (emit_step_length push_length _ _ _ Hstep).
Qed.

(** The bytes of the step at position [i] sit at the byte offset of [i]. *)
Lemma emitted_at solid bytecode i step :
  solid_asm_to_bytecode solid = Ok bytecode ->
  solid !! i = Some step ->
  exists chunk,
    emit_step (get_solid_offsets solid) step = Ok chunk /\
    placed_at bytecode (offset_of_position solid i) chunk.
Proof.
  unfold solid_asm_to_bytecode. intros (chunks & Hall & ->)%emit_steps_chunks Hi.
  destruct (Forall2_lookup_l _ _ _ _ _ Hall Hi) as (chunk & Hchunk & Hstep).
  exists chunk. split; [done|].
  exists (concat (take i chunks)), (concat (drop (S i) chunks)). split.
  - rewrite <- (take_drop_middle chunks i chunk Hchunk) at 1.
    by rewrite concat_app.
  - unfold offset_of_position. apply chunks_length with (m := get_solid_offsets solid).
    by apply Forall2_take.
Qed.

(** X12: in the bytecode [solid_asm_to_bytecode] returns, the bytes of every
    step sit at the byte offset of its position (the sizes of the steps
    before it): an instruction as its opcode and immediate, raw bytes as they
    are, a label as nothing, and a reference as a push whose immediate is as
    long as the width and decodes, big-endian, to the value of the
    reference. *)
Theorem emitted_layout (solid : list SolidAsm) (bytecode : list byte) (i : nat)
    (step : SolidAsm) :
  solid_asm_to_bytecode solid = Ok bytecode ->
  solid !! i = Some step ->
  match step with
  | S_Op o => placed_at bytecode (offset_of_position solid i) (get_bytes o)
  | S_bytes b => placed_at bytecode (offset_of_position solid i) b
  | S_Mark _ => placed_at bytecode (offset_of_position solid i) []
  | SizedRef r w =>
      exists v data,
        ref_value (get_solid_offsets solid) r = Ok v /\
        len data = w /\ from_bytes data = v /\
        placed_at bytecode (offset_of_position solid i) (get_bytes (create_push data))
  end.
Proof.
  intros Hemit Hi. destruct (emitted_at _ _ _ _ Hemit Hi) as (chunk & Hstep & Hplaced).
  destruct step as [o|mid|r w|b].
  - simpl in Hstep. by injection Hstep as <-.
  - simpl in Hstep. by injection Hstep as <-.
  - apply emit_step_ref in Hstep as (v & data & Hv & -> & Hlen & Hfrom).
    by exists v, data.
  - simpl in Hstep. by injection Hstep as <-.
Qed.

Lemma emit_steps_split m solid k bytecode :
  emit_steps m [] solid = Ok bytecode ->
  exists before after,
    emit_steps m [] (take k solid) = Ok before /\
    emit_steps m [] (drop k solid) = Ok after /\
    bytecode = before ++ after /\
    len before = offset_of_position solid k.
Proof.
  intros (chunks & Hall & ->)%emit_steps_chunks.
  exists (concat (take k chunks)), (concat (drop k chunks)).
  split; [|split; [|split]].
  - apply emit_steps_chunks. exists (take k chunks). split; [by apply Forall2_take|done].
  - apply emit_steps_chunks. exists (drop k chunks). split; [by apply Forall2_drop|done].
  - by rewrite <- concat_app, take_drop.
  - unfold offset_of_position. apply chunks_length with (m := m). by apply Forall2_take.
Qed.

(** X13: a reference is emitted pointing at its label.  In the bytecode
    [solid_asm_to_bytecode] returns, the immediate pushed for an absolute
    reference decodes to the number of bytes the steps before the label
    emitted: the bytecode is what those steps emitted followed by what the
    steps from the label on emitted, and the immediate is the length of the
    first part.  The immediate pushed for a distance reference decodes to the
    difference of the two such lengths. *)
Theorem emitted_reference_target (solid : list SolidAsm) (bytecode : list byte)
    (i : nat) (r : Ref) (w : Z) :
  solid_asm_to_bytecode solid = Ok bytecode ->
  solid !! i = Some (SizedRef r w) ->
  exists data,
    placed_at bytecode (offset_of_position solid i) (get_bytes (create_push data)) /\
    len data = w /\
    match r with
    | MarkRef mid =>
        exists k before after,
          last_label solid mid k /\
          emit_steps (get_solid_offsets solid) [] (take k solid) = Ok before /\
          emit_steps (get_solid_offsets solid) [] (drop k solid) = Ok after /\
          bytecode = before ++ after /\
          from_bytes data = len before
    | MarkDeltaRef start end_ =>
        exists k_start k_end before_start after_start before_end after_end,
          last_label solid start k_start /\ last_label solid end_ k_end /\
          emit_steps (get_solid_offsets solid) [] (take k_start solid) = Ok before_start /\
          emit_steps (get_solid_offsets solid) [] (drop k_start solid) = Ok after_start /\
          emit_steps (get_solid_offsets solid) [] (take k_end solid) = Ok before_end /\
          emit_steps (get_solid_offsets solid) [] (drop k_end solid) = Ok after_end /\
          bytecode = before_start ++ after_start /\
          bytecode = before_end ++ after_end /\
          from_bytes data = len before_end - len before_start
    end.
Proof.
  intros Hemit Hi. destruct (emitted_at _ _ _ _ Hemit Hi) as (chunk & Hstep & Hplaced).
  apply emit_step_ref in Hstep as (v & data & Hv & -> & Hlen & Hfrom).
  exists data. split; [done|]. split; [done|].
  assert (forall mid off, get_solid_offsets solid !! mid = Some off ->
            exists k before after, last_label solid mid k /\
              emit_steps (get_solid_offsets solid) [] (take k solid) = Ok before /\
              emit_steps (get_solid_offsets solid) [] (drop k solid) = Ok after /\
              bytecode = before ++ after /\ off = len before) as Hlabel.
  { intros mid off Hoff.
    assert (S_Mark mid ∈ solid) as Hin by (apply offsets_dom; by eexists).
    apply list_elem_of_split_r in Hin as (l1 & l2 & Hsplit & Hnotin).
    assert (solid !! length l1 = Some (S_Mark mid)) as Hk
      by (rewrite Hsplit; by rewrite list_lookup_middle).
    assert (forall j, (length l1 < j)%nat -> solid !! j <> Some (S_Mark mid)) as Hlast.
    { intros j Hlt Hj. rewrite Hsplit, lookup_app_r in Hj by lia.
      destruct (j - length l1)%nat as [|k'] eqn:Hk'; [lia|]. simpl in Hj.
      apply Hnotin. by eapply list_elem_of_lookup_2. }
    destruct (emit_steps_split _ solid (length l1) bytecode Hemit)
      as (before & after & Hb & Ha & Hcat & Hlenb).
    exists (length l1), before, after. split; [done|].
    split; [done|]. split; [done|]. split; [done|].
    unfold get_solid_offsets in Hoff.
    rewrite (offsets_from_lookup_last _ _ _ _ _ Hk Hlast) in Hoff.
    injection Hoff as <-. lia. }
  destruct r as [mid|start end_]; simpl in Hv; unfold getitem in Hv.
  - destruct (get_solid_offsets solid !! mid) as [off|] eqn:Hoff; [|done].
    injection Hv as ->.
    destruct (Hlabel mid v Hoff) as (k & before & after & Hk & Hb & Ha & Hcat & Hv).
    exists k, before, after. rewrite Hfrom. done.
  - destruct (get_solid_offsets solid !! end_) as [off_e|] eqn:He; [|done].
    destruct (get_solid_offsets solid !! start) as [off_s|] eqn:Hs; [|done].
    simpl in Hv. injection Hv as <-.
    destruct (Hlabel start off_s Hs) as (ks & bs & as_ & Hks & Hbs & Has & Hcs & ->).
    destruct (Hlabel end_ off_e He) as (ke & be & ae & Hke & Hbe & Hae & Hce & ->).
    exists ks, ke, bs, as_, be, ae. rewrite Hfrom. done.
Qed.
End Layout.

Lemma emitted_layout_witness :
  exists v data,
    ref_value
      (get_solid_offsets
         [S_Op (mkOp Byte.x5b []); S_Mark ([], 0); SizedRef (MarkRef ([], 0)) 1;
          S_bytes [Byte.x01]])
      (MarkRef ([], 0)) = Ok v /\
    len data = 1 /\ from_bytes data = v /\
    placed_at [Byte.x5b; Byte.x60; Byte.x01; Byte.x01]
      (offset_of_position
         [S_Op (mkOp Byte.x5b []); S_Mark ([], 0); SizedRef (MarkRef ([], 0)) 1;
          S_bytes [Byte.x01]] 2)
      (get_bytes (@create_push evm_table data)).
Proof.
  exact (@emitted_layout evm_table evm_table_push_length
    [S_Op (mkOp Byte.x5b []); S_Mark ([], 0); SizedRef (MarkRef ([], 0)) 1;
     S_bytes [Byte.x01]]
    [Byte.x5b; Byte.x60; Byte.x01; Byte.x01] 2
    (SizedRef (MarkRef ([], 0)) 1) eq_refl eq_refl).
Defined.

Lemma emitted_reference_target_witness :
  exists data,
    placed_at [Byte.x5b; Byte.x60; Byte.x01; Byte.x01]
      (offset_of_position
         [S_Op (mkOp Byte.x5b []); S_Mark ([], 0); SizedRef (MarkRef ([], 0)) 1;
          S_bytes [Byte.x01]] 2)
      (get_bytes (@create_push evm_table data)) /\
    len data = 1 /\
    exists k before after,
      last_label
        [S_Op (mkOp Byte.x5b []); S_Mark ([], 0); SizedRef (MarkRef ([], 0)) 1;
         S_bytes [Byte.x01]] ([], 0) k /\
      @emit_steps evm_table
        (get_solid_offsets
           [S_Op (mkOp Byte.x5b []); S_Mark ([], 0); SizedRef (MarkRef ([], 0)) 1;
            S_bytes [Byte.x01]]) []
        (take k
           [S_Op (mkOp Byte.x5b []); S_Mark ([], 0); SizedRef (MarkRef ([], 0)) 1;
            S_bytes [Byte.x01]]) = Ok before /\
      @emit_steps evm_table
        (get_solid_offsets
           [S_Op (mkOp Byte.x5b []); S_Mark ([], 0); SizedRef (MarkRef ([], 0)) 1;
            S_bytes [Byte.x01]]) []
        (drop k
           [S_Op (mkOp Byte.x5b []); S_Mark ([], 0); SizedRef (MarkRef ([], 0)) 1;
            S_bytes [Byte.x01]]) = Ok after /\
      [Byte.x5b; Byte.x60; Byte.x01; Byte.x01] = before ++ after /\
      from_bytes data = len before.
Proof.
  exact (@emitted_reference_target evm_table evm_table_push_length
    [S_Op (mkOp Byte.x5b []); S_Mark ([], 0); SizedRef (MarkRef ([], 0)) 1;
     S_bytes [Byte.x01]]
    [Byte.x5b; Byte.x60; Byte.x01; Byte.x01] 2
    (MarkRef ([], 0)) 1 eq_refl eq_refl).
Defined.

(** ** assembler.py: the shrinker under a budget *)




(** ** assembler.py: the size of the deploy wrapper *)

(** X15: the bytecode [minimal_deploy] returns for a payload of [K] bytes,
    [K + 19 < 2^48], is [8 + needed_bytes K] bytes longer than the payload:
    9 bytes of header for a payload of at most 255 bytes. *)
Theorem minimal_deploy_length `{laws : OpcodeTableLaws} (runtime : list byte)
    (fuel : nat) :
  len runtime + 19 < 2 ^ 48 ->
  (2 <= fuel)%nat ->
  exists bytecode,
    minimal_deploy fuel runtime = Some (Ok bytecode) /\
    len bytecode = 8 + needed_bytes (len runtime) + len runtime /\
    (len runtime <= 255 -> len bytecode = 9 + len runtime).
Proof.
  intros Hlen Hfuel.
  destruct (deploy_solidify runtime Hlen) as (w & Hw & Hsolid).
  destruct (deploy_emit runtime Hlen) as (length_immediate & start_immediate & Hemit & Hl & Hs).
  exists (deploy_bytecode length_immediate start_immediate runtime).
  assert (len (deploy_bytecode length_immediate start_immediate runtime)
          = 8 + needed_bytes (len runtime) + len runtime) as Hsize.
  { apply to_bytes_Ok in Hl as (_ & _ & _ & Hl). apply to_bytes_Ok in Hs as (_ & _ & _ & Hs).
    unfold deploy_bytecode, get_bytes. rewrite !len_app.
    rewrite !create_push_extra_data, !create_plain_op_extra_data.
    unfold len in *. rewrite !length_cons, !length_nil. lia. }
  split; [|split; [done|]].
  - unfold minimal_deploy, asm_to_bytecode.
    rewrite deploy_validate, Hsolid.
    change (default _ None) with (-1).
    by rewrite (deploy_shorten fuel w runtime Hfuel Hw Hlen), Hemit.
  - intros Hsmall. rewrite Hsize.
    rewrite needed_bytes_small by (pose proof (len_nonneg runtime); lia). lia.
Qed.

Lemma minimal_deploy_length_witness :
  exists bytecode,
    @minimal_deploy evm_table 2 (repeat Byte.xfe 256) = Some (Ok bytecode) /\
    len bytecode = 8 + needed_bytes (len (repeat Byte.xfe 256)) + len (repeat Byte.xfe 256) /\
    (len (repeat Byte.xfe 256) <= 255 -> len bytecode = 9 + len (repeat Byte.xfe 256)).
Proof.
  apply (@minimal_deploy_length evm_table evm_table_laws (repeat Byte.xfe 256) 2).
  - by vm_compute.
  - lia.
Defined.
